(** * Meeting-record viewer: normalisation, grouping, filtering

    A shallow embedding of the data-processing core of the single-page
    application (the [App.jsx] part of the source): [pickColumn],
    [parseDateLoose], [toYMD], [splitList], [normalizeRecord],
    [groupByProject], and the [filteredRecords] / [sortedRecords] memos.

    JavaScript strings are sequences of UTF-16 code units; they are modelled
    as lists of [N].  What a property lookup on a row returns, a cell
    string or [undefined], is kept dynamically typed through the [value]
    type, with the language's truthiness and [||].  Dates are time values
    in [Z]; what the host decides (date parsing, local calendar fields,
    lower-casing) is the class [Engine].

    Part I holds the definitions, Part II the properties. *)

From Stdlib Require Import ZArith Lia String Ascii Permutation Sorted.
From stdpp Require Import base option list gmap.

Local Open Scope Z_scope.

(** * Part I: the program *)

(** ** 1. Strings as sequences of code units *)

Abbreviation jsstring := (list N) (only parsing).

(** A literal written in the development, one code unit per character. *)
Definition str (s : string) : jsstring :=
  List.map N_of_ascii (list_ascii_of_string s).

Definition cu_eqb (a b : N) : bool := N.eqb a b.

(** [s === t] on two strings. *)
Definition str_eqb (s t : jsstring) : bool := bool_decide (s = t).

(** ECMAScript WhiteSpace and LineTerminator code points: what
    [String.prototype.trim] strips and what the class [\s] matches. *)
Definition is_ws (c : N) : bool :=
  ((9 <=? c) && (c <=? 13) || (c =? 32) || (c =? 160) || (c =? 5760)
   || (8192 <=? c) && (c <=? 8202) || (c =? 8232) || (c =? 8233)
   || (c =? 8239) || (c =? 8287) || (c =? 12288) || (c =? 65279))%N.

Fixpoint trimStart (s : jsstring) : jsstring :=
  match s with
  | c :: s' => if is_ws c then trimStart s' else s
  | [] => []
  end.

Definition trimEnd (s : jsstring) : jsstring := rev (trimStart (rev s)).

(** [s.trim()] *)
Definition trim (s : jsstring) : jsstring := trimEnd (trimStart s).

(** [s.split(re)] for a regular expression [re] that is a one-character
    class [d]: the pieces between consecutive delimiters, empty pieces
    included; the empty string gives one empty piece. *)
Fixpoint split (d : N -> bool) (s : jsstring) : list jsstring :=
  match s with
  | [] => [[]]
  | c :: s' =>
      if d c then [] :: split d s'
      else match split d s' with
           | p :: ps => (c :: p) :: ps
           | [] => [[c]]
           end
  end.

(** [arr.join(sep)] on an array of strings. *)
Fixpoint join (sep : jsstring) (l : list jsstring) : jsstring :=
  match l with
  | [] => []
  | [s] => s
  | s :: l' => s ++ sep ++ join sep l'
  end.

Fixpoint startsWith (s p : jsstring) : bool :=
  match p, s with
  | [], _ => true
  | _ :: _, [] => false
  | a :: p', b :: s' => cu_eqb a b && startsWith s' p'
  end.

(** [s.includes(q)] *)
Fixpoint includes (s q : jsstring) : bool :=
  startsWith s q ||
  match s with
  | [] => false
  | _ :: s' => includes s' q
  end.

(** [q] occurs in [s], as a proposition. *)
Definition occurs_in (q s : jsstring) : Prop :=
  exists pre post, s = pre ++ q ++ post.

(** [s.padStart(n, "0")] *)
Definition padStart0 (n : nat) (s : jsstring) : jsstring :=
  List.repeat 48%N (n - length s)%nat ++ s.

(** Decimal digits of a natural number, most significant first; [fuel]
    bounds the number of digits. *)
Fixpoint digits (fuel : nat) (n : N) (acc : jsstring) : jsstring :=
  match fuel with
  | O => acc
  | S fuel' =>
      let acc' := (48 + n mod 10)%N :: acc in
      if (n <? 10)%N then acc' else digits fuel' (n / 10)%N acc'
  end.

(** [String(n)] for an integral number. *)
Definition Number_toString (n : Z) : jsstring :=
  let a := Z.to_N (Z.abs n) in
  let ds := digits (S (N.to_nat (N.log2 a))) a [] in
  if n <? 0 then 45%N :: ds else ds.

(** ** 2. Regular expressions

    The fragment used by the source, matched the way ECMAScript specifies
    it: a backtracking matcher in continuation-passing style.  Capture
    groups are not observable through [test] and are not recorded. *)

Inductive regex : Type :=
| RChar (p : N -> bool)          (* one code unit satisfying [p] *)
| RSeq (a b : regex)
| RAlt (a b : regex)
| ROpt (a : regex)               (* a? , greedy *)
| RStarC (p : N -> bool)         (* [p]* for a character class, greedy *)
| REmpty.

Fixpoint starC (p : N -> bool) (k : jsstring -> bool) (s : jsstring) : bool :=
  match s with
  | c :: s' => (p c && starC p k s') || k s
  | [] => k s
  end.

Fixpoint rmatch (r : regex) (s : jsstring) (k : jsstring -> bool) : bool :=
  match r with
  | RChar p => match s with c :: s' => p c && k s' | [] => false end
  | RSeq a b => rmatch a s (fun s' => rmatch b s' k)
  | RAlt a b => rmatch a s k || rmatch b s k
  | ROpt a => rmatch a s k || k s
  | RStarC p => starC p k s
  | REmpty => k s
  end.

(** [re.test(s)] for a regular expression without the [g] and [y] flags:
    a match may start at any index. *)
Fixpoint regex_test (r : regex) (s : jsstring) : bool :=
  rmatch r s (fun _ => true) ||
  match s with
  | [] => false
  | _ :: s' => regex_test r s'
  end.

(** The strings a pattern denotes. *)
Inductive lang : regex -> jsstring -> Prop :=
| lang_char p c : p c = true -> lang (RChar p) [c]
| lang_seq a b s t : lang a s -> lang b t -> lang (RSeq a b) (s ++ t)
| lang_alt_l a b s : lang a s -> lang (RAlt a b) s
| lang_alt_r a b s : lang b s -> lang (RAlt a b) s
| lang_opt_some a s : lang a s -> lang (ROpt a) s
| lang_opt_none a : lang (ROpt a) []
| lang_star p s : Forall (fun c => p c = true) s -> lang (RStarC p) s
| lang_empty : lang REmpty [].

(** A pattern letter under the [i] flag.  Without the [u] flag a code
    unit above 127 never canonicalises to an ASCII letter, so a letter
    matches exactly its two ASCII cases. *)
Definition ci (lower : N) : regex :=
  RChar (fun c => (c =? lower)%N || (c =? lower - 32)%N).

Definition lit (c : N) : regex := RChar (fun x => (x =? c)%N).

Fixpoint ci_word (w : jsstring) : regex :=
  match w with
  | [] => REmpty
  | [c] => ci c
  | c :: w' => RSeq (ci c) (ci_word w')
  end.

Definition ws_star : regex := RStarC is_ws.

(** [/action\s*(points?|items?|to\s*-?\s*dos?|todos?)/i] *)
Definition action_regex : regex :=
  RSeq (ci_word (str "action"))
    (RSeq ws_star
       (RAlt (RSeq (ci_word (str "point")) (ROpt (ci 115)))
          (RAlt (RSeq (ci_word (str "item")) (ROpt (ci 115)))
             (RAlt (RSeq (ci_word (str "to"))
                      (RSeq ws_star
                         (RSeq (ROpt (lit 45))
                            (RSeq ws_star
                               (RSeq (ci_word (str "do")) (ROpt (ci 115)))))))
                (RSeq (ci_word (str "todo")) (ROpt (ci 115))))))).

(** ** 3. Dynamically typed values

    The values that flow out of a property lookup on a row: a cell string
    or [undefined].  [null] is kept so that "neither null nor undefined"
    can be stated. *)

Inductive value : Type :=
| Undefined
| Null
| Str (s : jsstring).

#[global] Instance value_eq_dec : EqDecision value.
Proof. solve_decision. Defined.

(** ToBoolean *)
Definition truthy (v : value) : bool :=
  match v with
  | Str (_ :: _) => true
  | _ => false
  end.

(** [a || b] *)
Definition js_or (a b : value) : value := if truthy a then a else b.

(** [String(v)], also the conversion of a property key. *)
Definition ToString (v : value) : jsstring :=
  match v with
  | Undefined => str "undefined"
  | Null => str "null"
  | Str s => s
  end.

(** [a === b] *)
Definition strict_eqb (a b : value) : bool := bool_decide (a = b).

(** A plain object with string-valued own properties, listed in the order
    [Object.keys] enumerates them (keys are distinct; a lookup stops at
    the first entry with the key).  None of the keys the program looks up
    is a property of [Object.prototype], so only own properties matter. *)
Abbreviation object := (list (list N * list N)) (only parsing).

Fixpoint own (o : object) (k : jsstring) : option jsstring :=
  match o with
  | [] => None
  | (k', v) :: o' => if str_eqb k' k then Some v else own o' k
  end.

(** [Object.prototype.hasOwnProperty.call(o, k)] *)
Definition hasOwnProperty (o : object) (k : value) : bool :=
  match own o (ToString k) with Some _ => true | None => false end.

(** [o[k]] *)
Definition get (o : object) (k : value) : value :=
  match own o (ToString k) with Some v => Str v | None => Undefined end.

(** [Object.keys(o)] *)
Definition keys (o : object) : list jsstring := List.map fst o.

(** What the host provides and the source relies on without defining:
    free-form date parsing, the local-time calendar fields of a time value
    and Unicode lower-casing.  Time values are integral milliseconds since
    the epoch; [Date_parse s = None] stands for an Invalid Date. *)
Class Engine : Type := {
  Date_parse : jsstring -> option Z;
  getFullYear : Z -> Z;
  getMonth : Z -> Z;
  getDate : Z -> Z;
  toLowerCase : jsstring -> jsstring;
  toLowerCase_empty : toLowerCase [] = []
}.

(** ** 4. The column map and the helpers *)

Definition COLUMN_MAP : object :=
  [ (str "timestamp", str "Timestamp");
    (str "date", str "Date of Meeting");
    (str "student", str "Student Name (be consistent)");
    (str "project", str "Discussed Project Title  (be consistent)");
    (str "topic", str "Meeting Topic");
    (str "subtopics", str "Subtopics / Agenda Items");
    (str "my_inputs", str "Supervisor Inputs & Suggestions");
    (str "link", str "Link to Additional Materials (Optional)");
    (str "action_points", str "Action Points") ].

(** [COLUMN_MAP.name] *)
Definition col (name : string) : value := get COLUMN_MAP (Str (str name)).

(** A raw row: header to cell text. *)
Abbreviation RawRow := (list (list N * list N)) (only parsing).

Definition pickColumn (raw : RawRow) (preferredName : value) (re : regex)
  : value :=
  if truthy preferredName && hasOwnProperty raw preferredName
  then get raw preferredName
  else
    match List.find (regex_test re) (keys raw) with
    | Some k => get raw (Str k)
    | None => Undefined
    end.

Section WithEngine.
Context {E : Engine}.

(** Returns [null] ([None]) or a valid Date, given by its time value. *)
Definition parseDateLoose (v : value) : option Z :=
  if negb (truthy v) then None
  else Date_parse (ToString v).

Definition toYMD (d : option Z) : jsstring :=
  match d with
  | None => []
  | Some t =>
      let y := getFullYear t in
      let m := padStart0 2 (Number_toString (getMonth t + 1)) in
      let day := padStart0 2 (Number_toString (getDate t)) in
      Number_toString y ++ str "-" ++ m ++ str "-" ++ day
  end.

Definition is_delim (c : N) : bool := (c =? 59)%N || (c =? 10)%N.

Definition nonempty (s : jsstring) : bool :=
  match s with [] => false | _ :: _ => true end.

Definition splitList (text : value) : list jsstring :=
  if negb (truthy text) then []
  else List.filter nonempty (List.map trim (split is_delim (ToString text))).

(** The object [normalizeRecord] returns.  The fields built as
    [raw[...] || literal] are values; [date] is [null] or a Date;
    [date_label] comes from a template literal or from [String(...)], and
    the two sequences from [splitList], which returns an array on every
    path. *)
Record MeetingRecord : Type := {
  meeting_id : value;
  date : option Z;
  date_label : jsstring;
  student : value;
  project : value;
  topic : value;
  subtopics : list jsstring;
  my_inputs : value;
  link : value;
  action_items : list jsstring;
  _raw : RawRow
}.

Definition normalizeRecord (raw : RawRow) : MeetingRecord :=
  let dateRawPrimary := get raw (col "date") in
  let dateRawFallback := get raw (col "timestamp") in
  let dateRaw := js_or dateRawPrimary dateRawFallback in
  let date := parseDateLoose dateRaw in
  let actionRaw :=
    js_or (pickColumn raw (col "action_points") action_regex) (Str []) in
  let action_items := splitList actionRaw in
  {| meeting_id := js_or (get raw (col "meeting_id")) (Str []);
     date := date;
     date_label :=
       match date with
       | Some _ => toYMD date
       | None => ToString (js_or dateRaw (Str []))
       end;
     student := js_or (get raw (col "student")) (Str []);
     project :=
       js_or (get raw (col "project")) (Str (str "Unspecified Project"));
     topic := js_or (get raw (col "topic")) (Str (str "(No topic)"));
     subtopics := splitList (js_or (get raw (col "subtopics")) (Str []));
     my_inputs :=
       js_or (get raw (col "my_inputs")) (Str (str "(No inputs)"));
     link := js_or (get raw (col "link")) (Str []);
     action_items := action_items;
     _raw := raw |}.

(** ** 5. Sorting, grouping, filtering *)

(** [Array.prototype.sort(cmp)].  The language requires the sort to be
    stable; for a comparator that is a consistent ordering the result is
    then determined, and a stable insertion sort computes it ([x] goes in
    front of the first [y] with [cmp x y <= 0]). *)
Fixpoint sort_insert {A} (cmp : A -> A -> Z) (x : A) (l : list A) : list A :=
  match l with
  | [] => [x]
  | y :: l' => if cmp x y <=? 0 then x :: l else y :: sort_insert cmp x l'
  end.

Definition Array_sort {A} (cmp : A -> A -> Z) (l : list A) : list A :=
  List.fold_right (sort_insert cmp) [] l.

(** [r.date ? r.date.getTime() : 0] *)
Definition time_or_zero (r : MeetingRecord) : Z :=
  match date r with Some t => t | None => 0 end.

(** The comparator [(a, b) => tb - ta].  Time values are integers of
    magnitude at most 8.64e15, so the sign of the floating-point
    difference is the sign of the integer difference. *)
Definition by_date_desc (a b : MeetingRecord) : Z :=
  let ta := time_or_zero a in
  let tb := time_or_zero b in
  tb - ta.

(** A [Map] whose keys are primitive values: entries in insertion order. *)
Fixpoint Map_get {V} (m : list (value * V)) (k : value) : option V :=
  match m with
  | [] => None
  | (k', v) :: m' => if strict_eqb k' k then Some v else Map_get m' k
  end.

Definition Map_has {V} (m : list (value * V)) (k : value) : bool :=
  match Map_get m k with Some _ => true | None => false end.

Fixpoint Map_set {V} (m : list (value * V)) (k : value) (v : V)
  : list (value * V) :=
  match m with
  | [] => [(k, v)]
  | (k', v') :: m' =>
      if strict_eqb k' k then (k', v) :: m' else (k', v') :: Map_set m' k v
  end.

Definition group_key (r : MeetingRecord) : value :=
  js_or (project r) (Str (str "Unspecified Project")).

(** The body of the [forEach] callback, on a map that holds the arrays
    themselves: [push] replaces the array stored under the key. *)
Definition group_step (m : list (value * list MeetingRecord))
  (r : MeetingRecord) : list (value * list MeetingRecord) :=
  let key := group_key r in
  let m1 := if negb (Map_has m key) then Map_set m key [] else m in
  match Map_get m1 key with
  | Some arr => Map_set m1 key (arr ++ [r])
  | None => m1
  end.

Definition groupByProject (records : list MeetingRecord)
  : list (value * list MeetingRecord) :=
  let map := List.fold_left group_step records [] in
  List.map (fun '(k, arr) => (k, Array_sort by_date_desc arr)) map.

(** [a < b] on two time values, [None] being NaN. *)
Definition time_lt (a b : option Z) : bool :=
  match a, b with
  | Some x, Some y => x <? y
  | _, _ => false
  end.

(** An element of an array as [Array.prototype.join] prints it. *)
Definition join_elem (v : value) : jsstring :=
  match v with
  | Str s => s
  | _ => []
  end.

Definition haystack (r : MeetingRecord) : jsstring :=
  toLowerCase
    (join (str " " ++ [10%N] ++ str " ")
       [ join_elem (student r); join_elem (project r); join_elem (topic r);
         join (str " ") (subtopics r); join_elem (my_inputs r) ]).

(** A Date bound built from a text field: [None] when the field is empty
    ([null] in the source), otherwise the time value of [new Date(text)],
    itself [None] when the date is invalid. *)
Definition bound (text : jsstring) : option (option Z) :=
  if nonempty text then Some (Date_parse text) else None.

(** The callback of [records.filter]. *)
Definition keep (projectFilter studentFilter : jsstring)
  (df dt : option (option Z)) (ql : jsstring) (r : MeetingRecord) : bool :=
  if negb (str_eqb projectFilter (str "ALL"))
     && negb (strict_eqb (project r) (Str projectFilter)) then false
  else if negb (str_eqb studentFilter (str "ALL"))
     && negb (strict_eqb (student r) (Str studentFilter)) then false
  else if match df, date r with
          | Some f, Some d => time_lt (Some d) f
          | _, _ => false
          end then false
  else if match dt, date r with
          | Some t, Some d => time_lt t (Some d)
          | _, _ => false
          end then false
  else if nonempty ql then
    let hay := haystack r in
    if negb (includes hay ql) then false else true
  else true.

Definition filteredRecords (records : list MeetingRecord)
  (projectFilter studentFilter dateFrom dateTo q : jsstring)
  : list MeetingRecord :=
  let df := bound dateFrom in
  let dt := bound dateTo in
  let ql := toLowerCase (trim q) in
  List.filter (keep projectFilter studentFilter df dt ql) records.

Definition sortedRecords (filteredRecords : list MeetingRecord)
  : list MeetingRecord :=
  Array_sort by_date_desc filteredRecords.

(** The five tests of the filter callback, each as a condition to keep
    the record. *)
Definition project_ok (projectFilter : jsstring) (r : MeetingRecord) : bool :=
  str_eqb projectFilter (str "ALL")
  || strict_eqb (project r) (Str projectFilter).

Definition student_ok (studentFilter : jsstring) (r : MeetingRecord) : bool :=
  str_eqb studentFilter (str "ALL")
  || strict_eqb (student r) (Str studentFilter).

Definition from_ok (df : option (option Z)) (r : MeetingRecord) : bool :=
  negb match df, date r with
       | Some f, Some d => time_lt (Some d) f
       | _, _ => false
       end.

Definition to_ok (dt : option (option Z)) (r : MeetingRecord) : bool :=
  negb match dt, date r with
       | Some t, Some d => time_lt t (Some d)
       | _, _ => false
       end.

Definition query_ok (ql : jsstring) (r : MeetingRecord) : bool :=
  negb (nonempty ql) || includes (haystack r) ql.

(** The free-text predicate: the empty query matches everything, any
    other query must occur in the lower-cased text of the record. *)
Definition matches_query (ql : jsstring) (r : MeetingRecord) : Prop :=
  ql = [] \/ occurs_in ql (haystack r).

(** The conjunction of the filter predicates, for the lower-cased query
    [ql]: project, student, both date bounds, free text. *)
Definition satisfies (projectFilter studentFilter dateFrom dateTo ql : jsstring)
  (r : MeetingRecord) : Prop :=
  (projectFilter = str "ALL" \/ project r = Str projectFilter) /\
  (studentFilter = str "ALL" \/ student r = Str studentFilter) /\
  (forall d f, dateFrom <> [] -> date r = Some d ->
               Date_parse dateFrom = Some f -> f <= d) /\
  (forall d t, dateTo <> [] -> date r = Some d ->
               Date_parse dateTo = Some t -> d <= t) /\
  matches_query ql r.

End WithEngine.

(** ** 6. Grouping and sorting on a store

    Records and arrays are objects; an array holds references.  To state
    what the functions leave untouched, the same code is modelled on a
    store where [push] and [sort] update an array in place. *)

Inductive cell : Type :=
| CRecord (r : MeetingRecord)
| CArray (elems : list positive).

(** A new object at an address not in use. *)
Definition alloc (h : gmap positive cell) (c : cell)
  : positive * gmap positive cell :=
  let l := fresh (dom h) in (l, <[l := c]> h).

(** [r.project || "Unspecified Project"] through a reference; a property
    an object lacks reads as [undefined]. *)
Definition ref_key (h : gmap positive cell) (l : positive) : value :=
  match h !! l with
  | Some (CRecord r) => group_key r
  | _ => Str (str "Unspecified Project")
  end.

(** [a.date ? a.date.getTime() : 0] through a reference. *)
Definition ref_time (h : gmap positive cell) (l : positive) : Z :=
  match h !! l with
  | Some (CRecord r) => time_or_zero r
  | _ => 0
  end.

(** [arr.push(r)] *)
Definition push (h : gmap positive cell) (arr r : positive)
  : gmap positive cell :=
  match h !! arr with
  | Some (CArray es) => <[arr := CArray (es ++ [r])]> h
  | _ => h
  end.

(** [arr.sort((a, b) => tb - ta)], in place. *)
Definition sort_in_place (h : gmap positive cell) (arr : positive)
  : gmap positive cell :=
  match h !! arr with
  | Some (CArray es) =>
      <[arr := CArray (Array_sort (fun a b => ref_time h b - ref_time h a) es)]> h
  | _ => h
  end.

Definition group_step_h (st : gmap positive cell * list (value * positive))
  (r : positive) : gmap positive cell * list (value * positive) :=
  let '(h, m) := st in
  let key := ref_key h r in
  let '(h1, m1) :=
    if negb (Map_has m key)
    then let '(l, h') := alloc h (CArray []) in (h', Map_set m key l)
    else (h, m) in
  match Map_get m1 key with
  | Some arr => (push h1 arr r, m1)
  | None => (h1, m1)
  end.

(** [groupByProject(records)] where [records] is the address of the input
    array; the result is the new store and the map, whose values are the
    addresses of the group arrays.  [None]: [records] is not an array. *)
Definition groupByProject_h (h : gmap positive cell) (records : positive)
  : option (gmap positive cell * list (value * positive)) :=
  match h !! records with
  | Some (CArray es) =>
      let '(h1, m) := List.fold_left group_step_h es (h, []) in
      let h2 := List.fold_left (fun h' '(_, arr) => sort_in_place h' arr) m h1 in
      Some (h2, m)
  | _ => None
  end.

(** [[...filteredRecords].sort(cmp)]: the spread makes a new array, which
    is then sorted in place; the result is its address. *)
Definition sortedRecords_h (h : gmap positive cell) (filtered : positive)
  : option (gmap positive cell * positive) :=
  match h !! filtered with
  | Some (CArray es) =>
      let '(l, h1) := alloc h (CArray es) in
      Some (sort_in_place h1 l, l)
  | _ => None
  end.

(** The records an array of references stands for. *)
Definition deref (h : gmap positive cell) (l : positive)
  : option MeetingRecord :=
  match h !! l with
  | Some (CRecord r) => Some r
  | _ => None
  end.

Definition read_array (h : gmap positive cell) (arr : positive)
  : option (list MeetingRecord) :=
  match h !! arr with
  | Some (CArray es) => mapM (deref h) es
  | _ => None
  end.

(** ** 7. A reference host

    An instance of [Engine] on which the development is run: ISO
    [YYYY-MM-DD] dates read as UTC midnight (as the language prescribes for
    date-only forms), the local time zone being UTC, and ASCII
    lower-casing. *)

Definition digit_val (c : N) : option Z :=
  if ((48 <=? c) && (c <=? 57))%N then Some (Z.of_N c - 48) else None.

Fixpoint number_of (ds : jsstring) (acc : Z) : option Z :=
  match ds with
  | [] => Some acc
  | c :: ds' =>
      match digit_val c with
      | Some d => number_of ds' (10 * acc + d)
      | None => None
      end
  end.

Definition days_from_civil (y m d : Z) : Z :=
  let y' := if m <=? 2 then y - 1 else y in
  let era := y' / 400 in
  let yoe := y' - era * 400 in
  let mp := if m >? 2 then m - 3 else m + 9 in
  let doy := (153 * mp + 2) / 5 + d - 1 in
  let doe := yoe * 365 + yoe / 4 - yoe / 100 + doy in
  era * 146097 + doe - 719468.

Definition civil_from_days (z : Z) : Z * Z * Z :=
  let z' := z + 719468 in
  let era := z' / 146097 in
  let doe := z' - era * 146097 in
  let yoe := (doe - doe / 1460 + doe / 36524 - doe / 146096) / 365 in
  let doy := doe - (365 * yoe + yoe / 4 - yoe / 100) in
  let mp := (5 * doy + 2) / 153 in
  let d := doy - (153 * mp + 2) / 5 + 1 in
  let m := if mp <? 10 then mp + 3 else mp - 9 in
  let y := yoe + era * 400 in
  (if m <=? 2 then y + 1 else y, m, d).

Definition ms_per_day : Z := 86400000.

Definition iso_parse (s : jsstring) : option Z :=
  match s with
  | [y1; y2; y3; y4; 45%N; m1; m2; 45%N; d1; d2] =>
      match number_of [y1; y2; y3; y4] 0, number_of [m1; m2] 0,
            number_of [d1; d2] 0 with
      | Some y, Some m, Some d =>
          if (1 <=? m) && (m <=? 12) && (1 <=? d) && (d <=? 31)
          then Some (days_from_civil y m d * ms_per_day)
          else None
      | _, _, _ => None
      end
  | _ => None
  end.

Definition ascii_lower (c : N) : N :=
  if ((65 <=? c) && (c <=? 90))%N then (c + 32)%N else c.

Definition utc_host : Engine :=
  {| Date_parse := iso_parse;
     getFullYear := fun t => fst (fst (civil_from_days (t / ms_per_day)));
     getMonth := fun t => snd (fst (civil_from_days (t / ms_per_day))) - 1;
     getDate := fun t => snd (civil_from_days (t / ms_per_day));
     toLowerCase := List.map ascii_lower;
     toLowerCase_empty := eq_refl |}.

(** Rows and records used in the examples. *)
Definition H_DATE : jsstring := str "Date of Meeting".
Definition H_TIMESTAMP : jsstring := str "Timestamp".
Definition H_STUDENT : jsstring := str "Student Name (be consistent)".
Definition H_PROJECT : jsstring :=
  str "Discussed Project Title  (be consistent)".
Definition H_ACTION : jsstring := str "Action Points".
Definition UNSPECIFIED : jsstring := str "Unspecified Project".

Definition mk (p : jsstring) (d : option Z) (topic : string)
  : MeetingRecord :=
  {| meeting_id := Str []; date := d; date_label := [];
     student := Str (str "Alice"); project := Str p;
     topic := Str (str topic); subtopics := []; my_inputs := Str (str "ok");
     link := Str []; action_items := []; _raw := [] |}.

Definition P_ : jsstring := str "P".

(** Five records: three of project P without a date or dated before the
    epoch, interleaved with dated ones. *)
Definition ex_a : MeetingRecord := mk P_ None "a".
Definition ex_b : MeetingRecord := mk P_ (Some (-86400000)) "b".
Definition ex_c : MeetingRecord := mk (str "Q") (Some 5) "c".
Definition ex_d : MeetingRecord := mk P_ (Some 1739145600000) "d".
Definition ex_e : MeetingRecord := mk P_ None "e".
Definition ex_records : list MeetingRecord := [ex_a; ex_b; ex_c; ex_d; ex_e].

Definition H_ACTION_ITEMS : jsstring := str "Action Items (for next week)".

Definition row_kickoff : list (list N * list N) :=
  [ (H_DATE, str "2025-01-10"); (H_STUDENT, str "Alice");
    (H_PROJECT, str "ProjA"); (str "Meeting Topic", str "Kickoff");
    (str "Subtopics / Agenda Items", str "Scope; Timeline");
    (str "Supervisor Inputs & Suggestions", str "Looks good") ].

Definition row_review : list (list N * list N) :=
  [ (H_DATE, str "2025-02-10"); (H_STUDENT, str "Alice");
    (H_PROJECT, str "ProjA"); (str "Meeting Topic", str "Review");
    (str "Subtopics / Agenda Items", str "Data; Results");
    (str "Supervisor Inputs & Suggestions", str "Needs more data") ].

Definition row_no_project : list (list N * list N) :=
  [ (H_DATE, str "2025-03-01"); (str "meeting_id", str "M-42");
    (H_PROJECT, str "") ].

Definition row_fallback : list (list N * list N) :=
  [ (H_STUDENT, str "Bob"); (H_ACTION_ITEMS, str "Email draft; Book room") ].

Definition row_two_matches : list (list N * list N) :=
  [ (str "Action item", str "X"); (H_ACTION_ITEMS, str "Y") ].

Definition row_empty_action : list (list N * list N) :=
  [ (H_ACTION, str ""); (H_ACTION_ITEMS, str "Email draft") ].

(** A store with two records and an array of both. *)
Definition ex_store : gmap positive cell :=
  <[3%positive := CArray [1%positive; 2%positive]]>
    (<[2%positive := CRecord ex_d]> (<[1%positive := CRecord ex_a]> ∅)).

(** ** 8. Notions used in the statements *)

(** [pieces] joined again with the delimiter characters [delims] between
    them, one after each piece but the last. *)
Fixpoint weave (pieces : list (list N)) (delims : list N) : list N :=
  match pieces, delims with
  | p :: ps, d :: ds => p ++ d :: weave ps ds
  | p :: _, [] => p
  | [], _ => []
  end.

Definition all_ws (s : jsstring) : Prop := Forall (fun c => is_ws c = true) s.

(** Neither the first nor the last code unit is white space. *)
Definition no_ws_at_ends (s : jsstring) : Prop :=
  (forall c, head s = Some c -> is_ws c = false) /\
  (forall c, last s = Some c -> is_ws c = false).

(** [s] is the word [w], written in lower case, up to the case of its
    ASCII letters. *)
Definition ci_eq (w s : jsstring) : Prop :=
  Forall2 (fun c x => x = c \/ x = (c - 32)%N) w s.

(** Nothing, or one letter s in either case. *)
Definition plural (e : jsstring) : Prop :=
  e = [] \/ exists x, e = [x] /\ (x = 115 \/ x = 83)%N.

(** point(s), item(s), todo(s), or to and do(s) with optional white space
    and an optional hyphen between them. *)
Definition action_object (w : jsstring) : Prop :=
  (exists x e, w = x ++ e /\ ci_eq (str "point") x /\ plural e) \/
  (exists x e, w = x ++ e /\ ci_eq (str "item") x /\ plural e) \/
  (exists t s1 d s2 x e,
      w = t ++ s1 ++ d ++ s2 ++ x ++ e /\ ci_eq (str "to") t /\ all_ws s1 /\
      (d = [] \/ d = [45%N]) /\ all_ws s2 /\ ci_eq (str "do") x /\ plural e) \/
  (exists x e, w = x ++ e /\ ci_eq (str "todo") x /\ plural e).

(** What the action pattern matches: the word action, optional white
    space, then one of the objects above. *)
Definition action_phrase (mid : jsstring) : Prop :=
  exists a sp w,
    mid = a ++ sp ++ w /\ ci_eq (str "action") a /\ all_ws sp /\
    action_object w.

(** The raw date text of a row: the date cell when it holds text,
    otherwise the timestamp cell, otherwise the empty string. *)
Definition raw_date_text (raw : list (list N * list N)) : jsstring :=
  match own raw H_DATE with
  | Some (c :: s) => c :: s
  | _ => match own raw H_TIMESTAMP with
         | Some s => s
         | None => []
         end
  end.

(** The two-tier resolution of the action column read as "scan the
    headers whenever the exact header yields nothing", an empty cell
    counting as nothing.  It is compared with [pickColumn], which scans
    only when the row lacks the exact header. *)
Definition action_cell_scanning_on_empty (raw : list (list N * list N))
  : value :=
  match own raw H_ACTION with
  | Some (c :: s) => Str (c :: s)
  | _ =>
      match List.find (regex_test action_regex) (keys raw) with
      | Some k => get raw (Str k)
      | None => Undefined
      end
  end.

(** A row with a matching header in front of an empty "Action Points"
    cell. *)
Definition row_scan_before_empty : list (list N * list N) :=
  [ (H_ACTION_ITEMS, str "Y"); (H_ACTION, str "") ].

(** Neither [null] nor [undefined]. *)
Definition non_null (v : value) : Prop := v <> Undefined /\ v <> Null.

(** The records of a sequence that fall under the grouping key [k], in
    input order. *)
Definition grp (k : value) (records : list MeetingRecord)
  : list MeetingRecord :=
  List.filter (fun r => strict_eqb (group_key r) k) records.

(** The records of a sequence whose sort key is [t], in order. *)
Definition at_time (t : Z) (records : list MeetingRecord)
  : list MeetingRecord :=
  List.filter (fun r => time_or_zero r =? t) records.

(** Newest first. *)
Definition newest_first (records : list MeetingRecord) : Prop :=
  StronglySorted (fun a b => time_or_zero b <= time_or_zero a) records.

(** [h'] agrees with [h0] on every object of [h0]. *)
Definition preserves (h0 h' : gmap positive cell) : Prop :=
  forall l c, h0 !! l = Some c -> h' !! l = Some c.

(** Every array of the map is an object that [h0] does not have. *)
Definition arrays_new (h0 : gmap positive cell) (m : list (value * positive))
  : Prop :=
  Forall (fun kv => h0 !! kv.2 = None) m.

(** The entry [kv] of a map on the store stands for the entry [kg] of a
    map of arrays: same key, and the array at [kv.2], new with respect to
    [h0], holds references to the records [kg.2]. *)
Definition holds (h0 h : gmap positive cell) (kv : value * positive)
  (kg : value * list MeetingRecord) : Prop :=
  kv.1 = kg.1 /\ h0 !! kv.2 = None /\
  exists es, h !! kv.2 = Some (CArray es) /\
             Forall2 (fun e r => deref h0 e = Some r) es kg.2.

(** ** 9. The application component

    The memos and handlers of [App] that the normaliser and the filter
    feed: the option lists of the two selectors, the list that is
    rendered, the keys of the rendered items, and the handlers that load
    rows and reset the filters. *)

(** [s < t] on two strings: code unit by code unit, a proper prefix being
    smaller. *)
Fixpoint str_ltb (s t : jsstring) : bool :=
  match s, t with
  | _, [] => false
  | [], _ :: _ => true
  | a :: s', b :: t' => (a <? b)%N || ((a =? b)%N && str_ltb s' t')
  end.

(** The comparison [Array.prototype.sort] uses when it is given no
    comparator: the elements as strings. *)
Definition default_compare (x y : value) : Z :=
  if str_ltb (ToString x) (ToString y) then -1
  else if str_ltb (ToString y) (ToString x) then 1
  else 0.

(** [set.add(v)] on a [Set] of primitive values, kept in insertion order. *)
Definition Set_add (s : list value) (v : value) : list value :=
  if existsb (strict_eqb v) s then s else s ++ [v].

(** The callback of the [forEach] that fills [pset] and [sset]. *)
Definition options_step (st : list value * list value) (r : MeetingRecord)
  : list value * list value :=
  let '(pset, sset) := st in
  (if truthy (project r) then Set_add pset (project r) else pset,
   if truthy (student r) then Set_add sset (student r) else sset).

(** The memo [{ projects, students }]. *)
Definition options (records : list MeetingRecord) : list value * list value :=
  let '(pset, sset) := List.fold_left options_step records ([], []) in
  (Str (str "ALL") :: Array_sort default_compare pset,
   Str (str "ALL") :: Array_sort default_compare sset).

Definition projects (records : list MeetingRecord) : list value :=
  fst (options records).

Definition students (records : list MeetingRecord) : list value :=
  snd (options records).

(** The [key] of a rendered record:
    [r.meeting_id || `${r.project}-${idx}`]. *)
Definition render_key (r : MeetingRecord) (idx : nat) : value :=
  js_or (meeting_id r)
    (Str (ToString (project r) ++ str "-" ++ Number_toString (Z.of_nat idx))).

(** The keys of [sortedRecords.map((r, idx) => ...)]. *)
Definition render_keys (sorted : list MeetingRecord) : list value :=
  imap (fun idx r => render_key r idx) sorted.

Definition DEFAULT_CSV_URL : jsstring :=
  str "https://docs.google.com/spreadsheets/d/e/2PACX-1vR3iDeJ3NzOCT_0_YZ9fE8Io9uLm_rpnNhj38EQdSHNd9O8PtJeGY31otTwmztIPKkcaPilrjjpSwWR/pub?output=csv".

(** What [Papa.parse] reports: [complete] with [res.data], which may be
    missing, or [error] with [err.message]. *)
Inductive parse_result : Type :=
| Complete (data : option (list (list (list N * list N))))
| ParseError (message : value).

(** What [fetch] and the parse that follows it come to: the request, or
    the reading of its text, fails with an exception carrying [message],
    or a response arrives with its [ok] flag and status, whose text is
    then parsed. *)
Inductive fetch_result : Type :=
| FetchError (message : value)
| Response (ok : bool) (status : Z) (parsed : parse_result).

Module App.

(** The state of the component. *)
Record State : Type := {
  csvUrl : jsstring;
  rawRows : list (list (list N * list N));
  error : value;
  loading : bool;
  projectFilter : jsstring;
  studentFilter : jsstring;
  dateFrom : jsstring;
  dateTo : jsstring;
  q : jsstring
}.

(** The initial values of the [useState] calls. *)
Definition initial : State :=
  {| csvUrl := DEFAULT_CSV_URL; rawRows := []; error := Str [];
     loading := false;
     projectFilter := str "ALL"; studentFilter := str "ALL";
     dateFrom := []; dateTo := []; q := [] |}.

Definition resetFilters (st : State) : State :=
  {| csvUrl := csvUrl st; rawRows := rawRows st; error := error st;
     loading := loading st;
     projectFilter := str "ALL"; studentFilter := str "ALL";
     dateFrom := []; dateTo := []; q := [] |}.

(** The state after the callbacks of one parse have run. *)
Definition parsed (fallback : string) (res : parse_result) (st : State)
  : State :=
  match res with
  | Complete data =>
      {| csvUrl := csvUrl st;
         rawRows := match data with Some rows => rows | None => [] end;
         error := Str []; loading := false;
         projectFilter := projectFilter st; studentFilter := studentFilter st;
         dateFrom := dateFrom st; dateTo := dateTo st; q := q st |}
  | ParseError message =>
      {| csvUrl := csvUrl st; rawRows := rawRows st;
         error := js_or message (Str (str fallback)); loading := false;
         projectFilter := projectFilter st; studentFilter := studentFilter st;
         dateFrom := dateFrom st; dateTo := dateTo st; q := q st |}
  end.

Definition failed (message : value) (st : State) : State :=
  {| csvUrl := csvUrl st; rawRows := rawRows st;
     error := js_or message (Str (str "Failed to fetch CSV")); loading := false;
     projectFilter := projectFilter st; studentFilter := studentFilter st;
     dateFrom := dateFrom st; dateTo := dateTo st; q := q st |}.

(** The URL that is fetched, [bust] being the clock reading. *)
Definition request_url (csvUrl : jsstring) (now : Z) : jsstring :=
  let bust := Number_toString now in
  if includes csvUrl (str "?")
  then csvUrl ++ str "&t=" ++ bust
  else csvUrl ++ str "?t=" ++ bust.

(** [loadFromUrl], run to its end with no other event in between; [now]
    is the reading of the clock and [fetch] what the network answers for
    a URL. *)
Definition loadFromUrl (now : Z) (fetch : jsstring -> fetch_result)
  (st : State) : State :=
  if negb (nonempty (csvUrl st)) then
    {| csvUrl := csvUrl st; rawRows := rawRows st;
       error := Str (str "Please enter a CSV URL."); loading := loading st;
       projectFilter := projectFilter st; studentFilter := studentFilter st;
       dateFrom := dateFrom st; dateTo := dateTo st; q := q st |}
  else
    match fetch (request_url (csvUrl st) now) with
    | FetchError message => failed message st
    | Response false status _ =>
        failed (Str (str "HTTP " ++ Number_toString status)) st
    | Response true _ res => parsed "Failed to parse CSV from URL" res st
    end.

(** [handleCsvFile], likewise; [file] is [None] when no file was picked. *)
Definition handleCsvFile (file : option parse_result) (st : State) : State :=
  match file with
  | None => st
  | Some res => parsed "Failed to parse CSV" res st
  end.

Section Views.
Context {E : Engine}.

(** The memo [records]. *)
Definition records (st : State) : list MeetingRecord :=
  List.map normalizeRecord (rawRows st).

(** The memo [filteredRecords] on the state. *)
Definition filtered (st : State) : list MeetingRecord :=
  filteredRecords (records st) (projectFilter st) (studentFilter st)
    (dateFrom st) (dateTo st) (q st).

(** The memo [sortedRecords] on the state: what the list renders. *)
Definition sorted (st : State) : list MeetingRecord :=
  sortedRecords (filtered st).

End Views.

End App.

(** Rows and a state used in the examples of Part III. *)
Definition row_bad_date : list (list N * list N) :=
  [ (H_TIMESTAMP, str "2025-03-02"); (H_DATE, str "next week") ].

Definition row_sentinel_named : list (list N * list N) :=
  [ (H_PROJECT, UNSPECIFIED); (H_STUDENT, str "Carol") ].

Definition ex_state : App.State :=
  {| App.csvUrl := str "https://example.org/sheet.csv";
     App.rawRows := [row_kickoff; row_review; row_no_project];
     App.error := Str []; App.loading := false;
     App.projectFilter := str "ProjA"; App.studentFilter := str "ALL";
     App.dateFrom := str "2025-02-01"; App.dateTo := []; App.q := [] |}.

(** A network that is down. *)
Definition offline (url : jsstring) : fetch_result :=
  FetchError (Str (str "Failed to fetch")).

(** Reading a label of the form dddd-dd-dd back into year, month, day. *)
Definition ymd_fields (s : jsstring) : option (Z * Z * Z) :=
  match s with
  | [y1; y2; y3; y4; h1; m1; m2; h2; d1; d2] =>
      if ((h1 =? 45) && (h2 =? 45))%N then
        match number_of [y1; y2; y3; y4] 0, number_of [m1; m2] 0,
              number_of [d1; d2] 0 with
        | Some y, Some m, Some d => Some (y, m, d)
        | _, _, _ => None
        end
      else None
  | _ => None
  end.

(** The [Set] that the [forEach] builds for one field, started from [s]:
    the truthy values of the field, each once, in order of first
    appearance. *)
Definition collect (field : MeetingRecord -> value)
  (records : list MeetingRecord) (s : list value) : list value :=
  List.fold_left
    (fun s r => if truthy (field r) then Set_add s (field r) else s)
    records s.

(** The project a row counts under: the text of its project cell, or the
    sentinel when the cell is absent or empty. *)
Definition project_text (raw : list (list N * list N)) : jsstring :=
  match own raw H_PROJECT with
  | Some (c :: s) => c :: s
  | _ => UNSPECIFIED
  end.

(** The code unit is a decimal digit. *)
Definition is_digit (c : N) : Prop := (48 <= c <= 57)%N.

(** [s] comes strictly before [t] in the order of [str_ltb]. *)
Definition str_lt (s t : jsstring) : Prop := str_ltb s t = true.

(** One load came to rows: the URL was not empty and the answer was a
    good response whose text parsed. *)
Definition load_succeeds (now : Z) (fetch : jsstring -> fetch_result)
  (st : App.State) : Prop :=
  App.csvUrl st <> [] /\
  exists status data,
    fetch (App.request_url (App.csvUrl st) now)
    = Response true status (Complete data).

(** * Part II: properties *)

(** ** The definitions on small inputs *)

Example action_regex_ex1 :
  regex_test action_regex (str "Action Items (for next week)") = true.
Proof. reflexivity. Qed.

Example action_regex_ex2 :
  regex_test action_regex (str "My ACTION  to - dos") = true.
Proof. reflexivity. Qed.

Example action_regex_ex3 :
  regex_test action_regex (str "Actions taken") = false.
Proof. reflexivity. Qed.

Example split_ex :
  split (fun c => (c =? 59)%N || (c =? 10)%N) (str "a;;b;") =
  [str "a"; str ""; str "b"; str ""].
Proof. reflexivity. Qed.

Example number_ex :
  Number_toString 2025 = str "2025" /\ Number_toString (-7) = str "-7"
  /\ Number_toString 0 = str "0" /\ padStart0 2 (Number_toString 3) = str "03".
Proof. repeat split; reflexivity. Qed.

Example trim_ex :
  trim ([9%N; 32%N] ++ str "a b" ++ [160%N; 10%N]) = str "a b".
Proof. reflexivity. Qed.

Example toYMD_ex :
  toYMD (E := utc_host) (Date_parse (Engine := utc_host) (str "2025-02-10"))
  = str "2025-02-10".
Proof. reflexivity. Qed.

Example date_before_epoch_ex :
  date (normalizeRecord (E := utc_host) [(H_DATE, str "1969-12-31")])
  = Some (-86400000).
Proof. reflexivity. Qed.

(** ** Strings *)

Lemma trimStart_split (s : list N) :
  exists l, s = l ++ trimStart s /\ all_ws l.
Proof.
  induction s as [|c s IH]; simpl.
  - exists []. split; [reflexivity | constructor].
  - destruct (is_ws c) eqn:Hc.
    + destruct IH as (l & Hl & Hws). exists (c :: l). split.
      * simpl. congruence.
      * constructor; assumption.
    + exists []. split; [reflexivity | constructor].
Qed.

Lemma trimStart_head (s : list N) c :
  head (trimStart s) = Some c -> is_ws c = false.
Proof.
  induction s as [|a s IH]; simpl; [discriminate|].
  destruct (is_ws a) eqn:Ha; [exact IH|].
  simpl. intros [= <-]. exact Ha.
Qed.

Lemma trimStart_fixed (s : list N) :
  (forall c, head s = Some c -> is_ws c = false) -> trimStart s = s.
Proof.
  destruct s as [|a s]; simpl; [reflexivity|].
  intros Hh. rewrite (Hh a eq_refl). reflexivity.
Qed.

Lemma trimStart_idem (s : list N) : trimStart (trimStart s) = trimStart s.
Proof. apply trimStart_fixed, trimStart_head. Qed.

Lemma trimStart_snoc (l : list N) c :
  is_ws c = false -> trimStart (l ++ [c]) = trimStart l ++ [c].
Proof.
  intros Hc. induction l as [|a l IH]; simpl.
  - rewrite Hc. reflexivity.
  - destruct (is_ws a); [exact IH | reflexivity].
Qed.

Lemma last_rev_head {A} (l : list A) : last (rev l) = head l.
Proof. destruct l as [|a l]; simpl; [reflexivity | apply last_snoc]. Qed.

Lemma trimEnd_split (s : list N) :
  exists r, s = trimEnd s ++ r /\ all_ws r.
Proof.
  unfold trimEnd. destruct (trimStart_split (rev s)) as (l & Hl & Hws).
  exists (rev l). split.
  - rewrite <- rev_app_distr, <- Hl, rev_involutive. reflexivity.
  - unfold all_ws in *. apply Forall_rev. exact Hws.
Qed.

Lemma trimEnd_last (s : list N) c :
  last (trimEnd s) = Some c -> is_ws c = false.
Proof.
  unfold trimEnd. rewrite last_rev_head. apply trimStart_head.
Qed.

Lemma trimEnd_cons (s : list N) c :
  is_ws c = false -> trimEnd (c :: s) = c :: trimEnd s.
Proof.
  intros Hc. unfold trimEnd. simpl rev.
  rewrite trimStart_snoc by exact Hc.
  rewrite rev_app_distr. reflexivity.
Qed.

Lemma trimEnd_idem (s : list N) : trimEnd (trimEnd s) = trimEnd s.
Proof.
  unfold trimEnd. rewrite rev_involutive, trimStart_idem. reflexivity.
Qed.

Lemma trim_head (s : list N) c : head (trim s) = Some c -> is_ws c = false.
Proof.
  unfold trim. pose proof (trimStart_head s) as Hh.
  destruct (trimStart s) as [|a t]; [discriminate|].
  specialize (Hh a eq_refl). rewrite trimEnd_cons by exact Hh.
  simpl. intros [= <-]. exact Hh.
Qed.

Lemma trim_no_ws_at_ends (s : list N) : no_ws_at_ends (trim s).
Proof.
  split; [apply trim_head | apply trimEnd_last].
Qed.

Lemma trim_fixed (s : list N) : no_ws_at_ends s -> trim s = s.
Proof.
  intros [Hh Hl]. unfold trim. rewrite (trimStart_fixed s Hh).
  unfold trimEnd. rewrite trimStart_fixed.
  - apply rev_involutive.
  - intros c Hc. apply Hl. rewrite <- (rev_involutive s), last_rev_head. exact Hc.
Qed.

Lemma trim_idem (s : list N) : trim (trim s) = trim s.
Proof. apply trim_fixed, trim_no_ws_at_ends. Qed.

Lemma trim_split (s : list N) :
  exists l r, s = l ++ trim s ++ r /\ all_ws l /\ all_ws r.
Proof.
  destruct (trimStart_split s) as (l & Hl & Hwl).
  destruct (trimEnd_split (trimStart s)) as (r & Hr & Hwr).
  exists l, r. unfold trim. rewrite <- Hr. auto.
Qed.

(** ** List-field splitting *)

Lemma split_cons_delim d c s : d c = true -> split d (c :: s) = [] :: split d s.
Proof. intros Hc. simpl. rewrite Hc. reflexivity. Qed.

Lemma split_weave d (s : list N) :
  exists ds,
    length (split d s) = S (length ds) /\
    Forall (fun c => d c = true) ds /\
    Forall (Forall (fun c => d c = false)) (split d s) /\
    weave (split d s) ds = s.
Proof.
  induction s as [|c s (ds & Hlen & Hds & Hps & Hw)].
  - exists []. simpl. repeat split; repeat constructor.
  - simpl. destruct (d c) eqn:Hc.
    + exists (c :: ds). simpl. repeat split.
      * f_equal. exact Hlen.
      * constructor; assumption.
      * constructor; [constructor | assumption].
      * f_equal. exact Hw.
    + destruct (split d s) as [|p ps]; [discriminate|].
      exists ds. repeat split.
      * exact Hlen.
      * exact Hds.
      * inversion Hps; subst. constructor; [constructor|]; assumption.
      * rewrite <- Hw. destruct ds; reflexivity.
Qed.

Lemma split_no_delim d (p : list N) :
  Forall (fun c => d c = false) p -> split d p = [p].
Proof.
  induction 1 as [|c p Hc _ IH]; simpl; [reflexivity|].
  rewrite Hc, IH. reflexivity.
Qed.

Lemma split_piece d (p : list N) c rest :
  Forall (fun c => d c = false) p -> d c = true ->
  split d (p ++ c :: rest) = p :: split d rest.
Proof.
  intros Hp Hc. induction Hp as [|a p Ha _ IH]; simpl.
  - rewrite Hc. reflexivity.
  - rewrite Ha, IH. reflexivity.
Qed.

Lemma split_determined d (ps : list (list N)) (ds : list N) :
  length ps = S (length ds) ->
  Forall (fun c => d c = true) ds ->
  Forall (Forall (fun c => d c = false)) ps ->
  split d (weave ps ds) = ps.
Proof.
  revert ds. induction ps as [|p ps IH]; intros ds Hlen Hds Hps.
  - discriminate.
  - inversion Hps as [|? ? Hp Hps']; subst.
    destruct ds as [|c ds]; simpl.
    + destruct ps; [|discriminate]. apply split_no_delim, Hp.
    + inversion Hds; subst. rewrite split_piece by assumption.
      f_equal. apply IH; [simpl in Hlen; lia | assumption | assumption].
Qed.

Lemma is_delim_spec c : is_delim c = true <-> (c = 59 \/ c = 10)%N.
Proof.
  unfold is_delim. rewrite orb_true_iff, !N.eqb_eq. reflexivity.
Qed.

Lemma is_delim_false c : is_delim c = false <-> (c <> 59 /\ c <> 10)%N.
Proof.
  unfold is_delim. rewrite orb_false_iff, !N.eqb_neq. reflexivity.
Qed.

Lemma splitList_pipeline (text : list N) :
  splitList (Str text) =
  List.filter nonempty (List.map trim (split is_delim text)).
Proof.
  unfold splitList. destruct text; reflexivity.
Qed.

(** C6.  [splitList] cuts its input at every semicolon and newline and
    nowhere else (a comma stays inside its piece), trims white space off
    both ends of each piece, drops the pieces left empty and keeps the
    others in source order.  The input "A; B;" newline "C" gives the
    three items A, B, C. *)
Theorem splitList_semicolon_newline :
  (forall text : list N,
      exists (pieces : list (list N)) (delims : list N),
        length pieces = S (length delims) /\
        Forall (fun c => c = 59 \/ c = 10)%N delims /\
        Forall (Forall (fun c => c <> 59 /\ c <> 10)%N) pieces /\
        text = weave pieces delims /\
        splitList (Str text) = List.filter nonempty (List.map trim pieces)) /\
  (forall (pieces : list (list N)) (delims : list N),
      length pieces = S (length delims) ->
      Forall (fun c => c = 59 \/ c = 10)%N delims ->
      Forall (Forall (fun c => c <> 59 /\ c <> 10)%N) pieces ->
      splitList (Str (weave pieces delims)) =
      List.filter nonempty (List.map trim pieces)) /\
  (forall p : list N,
      no_ws_at_ends (trim p) /\
      exists l r, p = l ++ trim p ++ r /\ all_ws l /\ all_ws r) /\
  splitList (Str (str "one, two; three")) = [str "one, two"; str "three"] /\
  splitList (Str (str "A; B;" ++ [10%N] ++ str "C")) =
    [str "A"; str "B"; str "C"].
Proof.
  split; [|split; [|split; [|split; reflexivity]]].
  - intros text. destruct (split_weave is_delim text) as (ds & Hlen & Hds & Hps & Hw).
    exists (split is_delim text), ds. repeat split.
    + exact Hlen.
    + eapply Forall_impl; [exact Hds|]. intros c. apply is_delim_spec.
    + eapply Forall_impl; [exact Hps|]. intros p Hp.
      eapply Forall_impl; [exact Hp|]. intros c. apply is_delim_false.
    + symmetry. exact Hw.
    + apply splitList_pipeline.
  - intros pieces delims Hlen Hds Hps. rewrite splitList_pipeline.
    rewrite split_determined; [reflexivity | exact Hlen | |].
    + eapply Forall_impl; [exact Hds|]. intros c. apply is_delim_spec.
    + eapply Forall_impl; [exact Hps|]. intros p Hp.
      eapply Forall_impl; [exact Hp|]. intros c. apply is_delim_false.
  - intros p. split; [apply trim_no_ws_at_ends | apply trim_split].
Qed.
(** ** Sorting *)

Section Sorting.
(** A comparator that is the difference of a sort key, as in the source. *)
Context {A : Type} (key : A -> Z) (cmp : A -> A -> Z).
Hypothesis cmp_key : forall a b, cmp a b = key b - key a.

Lemma sort_insert_perm (x : A) (l : list A) :
  Permutation (sort_insert cmp x l) (x :: l).
Proof.
  induction l as [|y l IH]; simpl; [reflexivity|].
  destruct (cmp x y <=? 0); [reflexivity|].
  rewrite IH. apply perm_swap.
Qed.

Lemma Array_sort_perm (l : list A) : Permutation (Array_sort cmp l) l.
Proof.
  induction l as [|x l IH]; simpl; [reflexivity|].
  rewrite sort_insert_perm, IH. reflexivity.
Qed.

Lemma sort_insert_sorted (x : A) (l : list A) :
  StronglySorted (fun a b => key b <= key a) l ->
  StronglySorted (fun a b => key b <= key a) (sort_insert cmp x l).
Proof.
  induction 1 as [|y l Hs IH Hy]; simpl.
  - repeat constructor.
  - rewrite cmp_key. destruct (Z.leb_spec (key y - key x) 0) as [Hle|Hgt].
    + constructor; [constructor; assumption|].
      constructor; [lia|].
      eapply Forall_impl; [exact Hy|]. simpl. intros; lia.
    + constructor; [exact IH|].
      eapply Permutation_Forall; [symmetry; apply sort_insert_perm|].
      constructor; [lia | exact Hy].
Qed.

Lemma Array_sort_sorted (l : list A) :
  StronglySorted (fun a b => key b <= key a) (Array_sort cmp l).
Proof.
  induction l as [|x l IH]; simpl; [constructor|].
  apply sort_insert_sorted, IH.
Qed.

Lemma sort_insert_stable (t : Z) (x : A) (l : list A) :
  List.filter (fun a => key a =? t) (sort_insert cmp x l) =
  List.filter (fun a => key a =? t) (x :: l).
Proof.
  induction l as [|y l IH]; simpl; [reflexivity|].
  rewrite cmp_key. destruct (Z.leb_spec (key y - key x) 0) as [Hle|Hgt].
  - reflexivity.
  - simpl. rewrite IH. simpl.
    destruct (Z.eqb_spec (key x) t), (Z.eqb_spec (key y) t);
      try reflexivity; lia.
Qed.

Lemma Array_sort_stable (t : Z) (l : list A) :
  List.filter (fun a => key a =? t) (Array_sort cmp l) =
  List.filter (fun a => key a =? t) l.
Proof.
  induction l as [|x l IH]; simpl; [reflexivity|].
  rewrite sort_insert_stable. simpl. rewrite IH. reflexivity.
Qed.

(** Sortedness and stability leave no choice: any two lists that are
    sorted on the key and agree on every class of equal keys are equal.
    So every stable sort computes [Array_sort]. *)
Lemma stable_sorted_unique (l1 l2 : list A) :
  StronglySorted (fun a b => key b <= key a) l1 ->
  StronglySorted (fun a b => key b <= key a) l2 ->
  (forall t, List.filter (fun a => key a =? t) l1 =
             List.filter (fun a => key a =? t) l2) ->
  l1 = l2.
Proof.
  intros H1. revert l2. induction H1 as [|a l1 Hs1 IH Ha]; intros l2 H2 Heq.
  - destruct l2 as [|b l2]; [reflexivity|].
    specialize (Heq (key b)). simpl in Heq. rewrite Z.eqb_refl in Heq.
    discriminate.
  - destruct l2 as [|b l2].
    + specialize (Heq (key a)). simpl in Heq. rewrite Z.eqb_refl in Heq.
      discriminate.
    + inversion H2 as [|? ? Hs2 Hb]; subst.
      assert (Hab : key a = key b).
      { assert (In a (b :: l2)) as Hin.
        { eapply (proj1 (filter_In _ _ _)). rewrite <- (Heq (key a)).
          simpl. rewrite Z.eqb_refl. left. reflexivity. }
        assert (In b (a :: l1)) as Hin'.
        { eapply (proj1 (filter_In _ _ _)). rewrite (Heq (key b)).
          simpl. rewrite Z.eqb_refl. left. reflexivity. }
        rewrite Forall_forall in Ha, Hb.
        destruct Hin as [->|Hin]; [reflexivity|].
        destruct Hin' as [->|Hin']; [reflexivity|].
        apply list_elem_of_In in Hin, Hin'.
        specialize (Ha _ Hin'). specialize (Hb _ Hin). lia. }
      assert (a = b) as ->.
      { specialize (Heq (key a)). simpl in Heq.
        rewrite Z.eqb_refl, <- Hab, Z.eqb_refl in Heq. congruence. }
      f_equal. apply IH; [exact Hs2|].
      intros t. specialize (Heq t). simpl in Heq.
      revert Heq. destruct (key b =? t); congruence.
Qed.

Lemma stable_sort_is_Array_sort (l out : list A) :
  StronglySorted (fun a b => key b <= key a) out ->
  (forall t, List.filter (fun a => key a =? t) out =
             List.filter (fun a => key a =? t) l) ->
  out = Array_sort cmp l.
Proof.
  intros Hs Hst. apply stable_sorted_unique; [exact Hs | apply Array_sort_sorted|].
  intros t. rewrite Array_sort_stable. apply Hst.
Qed.

Lemma sorted_positions (l : list A) (i j : nat) (a b : A) :
  StronglySorted (fun a b => key b <= key a) l ->
  l !! i = Some a -> l !! j = Some b -> key a < key b -> (j < i)%nat.
Proof.
  intros Hs. revert i j. induction Hs as [|x l Hs IH Hx]; intros i j Hi Hj Hlt.
  - discriminate.
  - destruct i as [|i], j as [|j]; simpl in *.
    + injection Hi as ->. injection Hj as ->. lia.
    + injection Hi as ->. rewrite Forall_forall in Hx.
      specialize (Hx b (list_elem_of_lookup_2 _ _ _ Hj)). lia.
    + lia.
    + apply -> Nat.succ_lt_mono. eapply IH; eassumption.
Qed.

End Sorting.

(** ** Maps in insertion order *)

Section Maps.
Context {V : Type}.
Implicit Types (m : list (value * V)) (k : value).

Lemma Map_get_set_eq m k v : Map_get (Map_set m k v) k = Some v.
Proof.
  induction m as [|[k' v'] m IH]; simpl.
  - unfold strict_eqb. rewrite bool_decide_eq_true_2 by reflexivity. reflexivity.
  - destruct (strict_eqb k' k) eqn:Hk; simpl; rewrite Hk; [reflexivity | exact IH].
Qed.

Lemma Map_get_set_ne m k k' v :
  k <> k' -> Map_get (Map_set m k v) k' = Map_get m k'.
Proof.
  intros Hne. induction m as [|[k0 v0] m IH]; simpl.
  - unfold strict_eqb. rewrite bool_decide_eq_false_2 by exact Hne. reflexivity.
  - destruct (strict_eqb k0 k) eqn:Hk; simpl.
    + apply bool_decide_eq_true_1 in Hk. subst k0.
      unfold strict_eqb. rewrite bool_decide_eq_false_2 by exact Hne. reflexivity.
    + rewrite IH. reflexivity.
Qed.

Lemma Map_has_get m k : Map_has m k = false <-> Map_get m k = None.
Proof. unfold Map_has. destruct (Map_get m k); split; congruence. Qed.

Lemma Map_get_In m k v : Map_get m k = Some v -> In (k, v) m.
Proof.
  induction m as [|[k' v'] m IH]; simpl; [discriminate|].
  destruct (strict_eqb k' k) eqn:Hk.
  - apply bool_decide_eq_true_1 in Hk. intros [= ->]. left. congruence.
  - intros Hg. right. exact (IH Hg).
Qed.

Lemma Map_set_keys m k v :
  List.map fst (Map_set m k v) =
  if Map_has m k then List.map fst m else List.map fst m ++ [k].
Proof.
  unfold Map_has. induction m as [|[k' v'] m IH]; simpl; [reflexivity|].
  destruct (strict_eqb k' k) eqn:Hk; simpl; [reflexivity|].
  rewrite IH. destruct (Map_get m k); reflexivity.
Qed.

Lemma Map_get_None_keys m k : Map_get m k = None -> ~ In k (List.map fst m).
Proof.
  induction m as [|[k' v'] m IH]; simpl; [tauto|].
  destruct (strict_eqb k' k) eqn:Hk; [discriminate|].
  apply bool_decide_eq_false_1 in Hk. intros Hg [Heq|Hin]; [congruence|].
  exact (IH Hg Hin).
Qed.

Lemma Map_set_NoDup m k v :
  List.NoDup (List.map fst m) -> List.NoDup (List.map fst (Map_set m k v)).
Proof.
  intros Hnd. rewrite Map_set_keys. destruct (Map_has m k) eqn:Hh; [exact Hnd|].
  apply Map_has_get, Map_get_None_keys in Hh.
  apply NoDup_ListNoDup, NoDup_app. apply NoDup_ListNoDup in Hnd.
  split; [exact Hnd|]. split.
  - intros x Hx Hx'. apply list_elem_of_singleton in Hx'. subst x.
    apply Hh, list_elem_of_In, Hx.
  - apply NoDup_singleton.
Qed.

Lemma Map_get_map {W} (f : V -> W) m k :
  Map_get (List.map (fun '(k, v) => (k, f v)) m) k = f <$> Map_get m k.
Proof.
  induction m as [|[k' v'] m IH]; simpl; [reflexivity|].
  destruct (strict_eqb k' k); [reflexivity | exact IH].
Qed.

Lemma Map_keys_map {W} (f : V -> W) m :
  List.map fst (List.map (fun '(k, v) => (k, f v)) m) = List.map fst m.
Proof.
  induction m as [|[k' v'] m IH]; simpl; [reflexivity|]. f_equal. exact IH.
Qed.

End Maps.

(** ** Grouping *)

Lemma group_step_get (m : list (value * list MeetingRecord)) r k :
  Map_get (group_step m r) k =
  if strict_eqb (group_key r) k
  then Some (default [] (Map_get m k) ++ [r])
  else Map_get m k.
Proof.
  unfold group_step, strict_eqb.
  destruct (Map_has m (group_key r)) eqn:Hh; simpl.
  - unfold Map_has in Hh.
    destruct (Map_get m (group_key r)) as [arr|] eqn:Hg; [|discriminate].
    case_bool_decide as Hk.
    + subst k. rewrite Map_get_set_eq, Hg. reflexivity.
    + rewrite Map_get_set_ne by exact Hk. reflexivity.
  - rewrite Map_get_set_eq. apply Map_has_get in Hh.
    case_bool_decide as Hk.
    + subst k. rewrite Map_get_set_eq, Hh. reflexivity.
    + rewrite !Map_get_set_ne by exact Hk. reflexivity.
Qed.

Lemma group_step_NoDup (m : list (value * list MeetingRecord)) r :
  List.NoDup (List.map fst m) -> List.NoDup (List.map fst (group_step m r)).
Proof.
  intros Hnd. unfold group_step.
  set (m1 := if negb (Map_has m (group_key r)) then _ else _).
  assert (List.NoDup (List.map fst m1)) as Hnd1.
  { subst m1. destruct (Map_has m (group_key r)); simpl;
      [exact Hnd | apply Map_set_NoDup, Hnd]. }
  destruct (Map_get m1 (group_key r)); [apply Map_set_NoDup|]; exact Hnd1.
Qed.

Lemma group_fold_get (rs : list MeetingRecord) m k :
  Map_get (List.fold_left group_step rs m) k =
  match grp k rs with
  | [] => Map_get m k
  | g => Some (default [] (Map_get m k) ++ g)
  end.
Proof.
  revert m. induction rs as [|r rs IH]; intros m; simpl; [reflexivity|].
  rewrite IH, group_step_get. unfold grp. simpl.
  destruct (strict_eqb (group_key r) k); simpl.
  - destruct (List.filter _ rs); simpl; [reflexivity|].
    rewrite <- app_assoc. reflexivity.
  - reflexivity.
Qed.

Lemma group_fold_NoDup (rs : list MeetingRecord) m :
  List.NoDup (List.map fst m) ->
  List.NoDup (List.map fst (List.fold_left group_step rs m)).
Proof.
  revert m. induction rs as [|r rs IH]; intros m Hnd; simpl; [exact Hnd|].
  apply IH, group_step_NoDup, Hnd.
Qed.

(** What the map returned by [groupByProject] holds under a key: nothing
    when no record has that key, otherwise the records with that key,
    sorted. *)
Lemma groupByProject_get (rs : list MeetingRecord) k :
  Map_get (groupByProject rs) k =
  match grp k rs with
  | [] => None
  | g => Some (Array_sort by_date_desc g)
  end.
Proof.
  unfold groupByProject. rewrite (Map_get_map (Array_sort by_date_desc)).
  rewrite group_fold_get. simpl. destruct (grp k rs); reflexivity.
Qed.

Lemma groupByProject_keys_NoDup (rs : list MeetingRecord) :
  List.NoDup (List.map fst (groupByProject rs)).
Proof.
  unfold groupByProject. rewrite (Map_keys_map (Array_sort by_date_desc)).
  apply group_fold_NoDup. constructor.
Qed.

Lemma by_date_desc_key (a b : MeetingRecord) :
  by_date_desc a b = time_or_zero b - time_or_zero a.
Proof. reflexivity. Qed.

(** What sorting by date gives, for any sequence of records. *)
Lemma sorted_by_date (l : list MeetingRecord) :
  let out := Array_sort by_date_desc l in
  Permutation out l /\
  newest_first out /\
  (forall t, at_time t out = at_time t l) /\
  (forall (i j : nat) (a b : MeetingRecord),
      out !! i = Some a -> out !! j = Some b ->
      date a = None -> (exists t, date b = Some t /\ 0 < t) -> (j < i)%nat).
Proof.
  pose proof by_date_desc_key as Hk.
  simpl. repeat split.
  - apply Array_sort_perm.
  - apply (Array_sort_sorted time_or_zero by_date_desc Hk).
  - intros t. apply (Array_sort_stable time_or_zero by_date_desc Hk).
  - intros i j a b Hi Hj Ha (t & Hb & Ht).
    apply (sorted_positions time_or_zero _ i j a b
             (Array_sort_sorted time_or_zero by_date_desc Hk l) Hi Hj).
    unfold time_or_zero. rewrite Ha, Hb. exact Ht.
Qed.

(** C1 (as amended).  Each group of [groupByProject], and the result of the
    sort applied after filtering, holds its input records ordered by date,
    newest first, a record without a date counting as time 0: it comes
    after every record whose date has a positive time value.  Records with
    equal time values keep their input order. *)
Theorem groups_sorted_newest_first (records : list MeetingRecord) :
  (forall k g,
      Map_get (groupByProject records) k = Some g ->
      Permutation g (grp k records) /\
      newest_first g /\
      (forall t, at_time t g = at_time t (grp k records)) /\
      (forall (i j : nat) (a b : MeetingRecord),
          g !! i = Some a -> g !! j = Some b ->
          date a = None -> (exists t, date b = Some t /\ 0 < t) ->
          (j < i)%nat)) /\
  Permutation (sortedRecords records) records /\
  newest_first (sortedRecords records) /\
  (forall t, at_time t (sortedRecords records) = at_time t records) /\
  (forall (i j : nat) (a b : MeetingRecord),
      sortedRecords records !! i = Some a ->
      sortedRecords records !! j = Some b ->
      date a = None -> (exists t, date b = Some t /\ 0 < t) ->
      (j < i)%nat).
Proof.
  split.
  - intros k g Hg. rewrite groupByProject_get in Hg.
    destruct (grp k records) as [|r g0] eqn:Hgrp; [discriminate|].
    injection Hg as <-. exact (sorted_by_date (r :: g0)).
  - exact (sorted_by_date records).
Qed.

(** ** Regular expressions *)

Lemma starC_spec p k (s : list N) :
  starC p k s = true <->
  exists s1 s2, s = s1 ++ s2 /\ Forall (fun c => p c = true) s1 /\ k s2 = true.
Proof.
  induction s as [|c s IH]; simpl.
  - split.
    + intros Hk. exists [], []. repeat split; [constructor | exact Hk].
    + intros (s1 & s2 & Hs & _ & Hk). symmetry in Hs.
      apply app_eq_nil in Hs as [_ ->]. exact Hk.
  - rewrite orb_true_iff, andb_true_iff, IH. split.
    + intros [(Hc & s1 & s2 & -> & Hs1 & Hk) | Hk].
      * exists (c :: s1), s2. repeat split; [constructor; assumption | exact Hk].
      * exists [], (c :: s). repeat split; [constructor | exact Hk].
    + intros ([|c' s1] & s2 & Hs & Hs1 & Hk); simpl in Hs.
      * right. rewrite Hs. exact Hk.
      * left. injection Hs as <- ->. inversion Hs1; subst.
        split; [assumption|]. exists s1, s2. repeat split; assumption.
Qed.

Lemma rmatch_spec (r : regex) (s : list N) (k : list N -> bool) :
  rmatch r s k = true <->
  exists s1 s2, s = s1 ++ s2 /\ lang r s1 /\ k s2 = true.
Proof.
  revert s k. induction r as [p | a IHa b IHb | a IHa b IHb | a IHa | p |];
    intros s k; simpl.
  - destruct s as [|c s].
    + split; [discriminate|]. intros (s1 & s2 & Hs & Hl & _).
      inversion Hl; subst. discriminate.
    + rewrite andb_true_iff. split.
      * intros [Hc Hk]. exists [c], s. repeat split; [constructor|]; assumption.
      * intros (s1 & s2 & Hs & Hl & Hk). inversion Hl; subst.
        injection Hs as -> ->. split; assumption.
  - rewrite IHa. split.
    + intros (s1 & s2 & -> & Ha & Hb). apply IHb in Hb as (t1 & t2 & -> & Hb & Hk).
      exists (s1 ++ t1), t2. rewrite <- app_assoc.
      repeat split; [constructor|]; assumption.
    + intros (s1 & s2 & -> & Hl & Hk).
      inversion Hl as [| ? ? u v Hu Hv | | | | | |]; subst.
      exists u, (v ++ s2). rewrite <- app_assoc. repeat split; [assumption|].
      apply IHb. exists v, s2. repeat split; assumption.
  - rewrite orb_true_iff, IHa, IHb. split.
    + intros [(s1 & s2 & -> & Hl & Hk) | (s1 & s2 & -> & Hl & Hk)];
        exists s1, s2; repeat split; try assumption;
        [apply lang_alt_l | apply lang_alt_r]; assumption.
    + intros (s1 & s2 & -> & Hl & Hk). inversion Hl; subst;
        [left | right]; exists s1, s2; repeat split; assumption.
  - rewrite orb_true_iff, IHa. split.
    + intros [(s1 & s2 & -> & Hl & Hk) | Hk].
      * exists s1, s2. repeat split; [apply lang_opt_some|]; assumption.
      * exists [], s. repeat split; [apply lang_opt_none | exact Hk].
    + intros (s1 & s2 & -> & Hl & Hk). inversion Hl; subst.
      * left. exists s1, s2. repeat split; assumption.
      * right. exact Hk.
  - rewrite starC_spec. split; intros (s1 & s2 & -> & Hl & Hk); exists s1, s2;
      repeat split; try assumption; [constructor; assumption | inversion Hl; assumption].
  - split.
    + intros Hk. exists [], s. repeat split; [constructor | exact Hk].
    + intros (s1 & s2 & -> & Hl & Hk). inversion Hl; subst. exact Hk.
Qed.

(** [test] succeeds exactly when some stretch of the string belongs to
    the language of the pattern. *)
Lemma regex_test_spec (r : regex) (s : list N) :
  regex_test r s = true <->
  exists pre mid post, s = pre ++ mid ++ post /\ lang r mid.
Proof.
  induction s as [|c s IH]; simpl.
  - rewrite orb_false_r, rmatch_spec. split.
    + intros (s1 & s2 & Hs & Hl & _). exists [], s1, s2. split; assumption.
    + intros (pre & mid & post & Hs & Hl). symmetry in Hs.
      apply app_eq_nil in Hs as [-> Hs]. exists mid, post.
      repeat split; [symmetry|]; assumption.
  - rewrite orb_true_iff, rmatch_spec, IH. split.
    + intros [(s1 & s2 & Hs & Hl & _) | (pre & mid & post & -> & Hl)].
      * exists [], s1, s2. split; assumption.
      * exists (c :: pre), mid, post. split; [reflexivity | assumption].
    + intros ([|c' pre] & mid & post & Hs & Hl); simpl in Hs.
      * left. exists mid, post. repeat split; assumption.
      * right. injection Hs as <- ->. exists pre, mid, post.
        split; [reflexivity | assumption].
Qed.

Lemma lang_seq_iff a b (s : list N) :
  lang (RSeq a b) s <-> exists s1 s2, s = s1 ++ s2 /\ lang a s1 /\ lang b s2.
Proof.
  split.
  - intros Hl. inversion Hl; subst. eauto.
  - intros (s1 & s2 & -> & Ha & Hb). constructor; assumption.
Qed.

Lemma lang_alt_iff a b (s : list N) :
  lang (RAlt a b) s <-> lang a s \/ lang b s.
Proof.
  split.
  - intros Hl. inversion Hl; subst; auto.
  - intros [Hl | Hl]; [apply lang_alt_l | apply lang_alt_r]; exact Hl.
Qed.

Lemma lang_opt_iff a (s : list N) : lang (ROpt a) s <-> s = [] \/ lang a s.
Proof.
  split.
  - intros Hl. inversion Hl; subst; auto.
  - intros [-> | Hl]; [apply lang_opt_none | apply lang_opt_some, Hl].
Qed.

Lemma lang_star_iff (s : list N) : lang ws_star s <-> all_ws s.
Proof.
  split.
  - intros Hl. inversion Hl; subst. assumption.
  - intros Hs. constructor. exact Hs.
Qed.

Lemma lang_ci c (s : list N) :
  lang (ci c) s <-> exists x, s = [x] /\ (x = c \/ x = (c - 32)%N).
Proof.
  unfold ci. split.
  - intros Hl. inversion Hl as [p x Hx | | | | | | |]; subst. exists x.
    split; [reflexivity|]. apply orb_true_iff in Hx.
    rewrite !N.eqb_eq in Hx. exact Hx.
  - intros (x & -> & Hx). constructor. apply orb_true_iff.
    rewrite !N.eqb_eq. exact Hx.
Qed.

Lemma lang_lit c (s : list N) : lang (lit c) s <-> s = [c].
Proof.
  unfold lit. split.
  - intros Hl. inversion Hl as [p x Hx | | | | | | |]; subst.
    apply N.eqb_eq in Hx. subst. reflexivity.
  - intros ->. constructor. apply N.eqb_refl.
Qed.

Lemma lang_ci_word (w s : list N) : lang (ci_word w) s <-> ci_eq w s.
Proof.
  unfold ci_eq. revert s. induction w as [|c w IH]; intros s.
  - simpl. split.
    + intros Hl. inversion Hl. constructor.
    + intros Hs. inversion Hs. constructor.
  - destruct w as [|c' w].
    + simpl. rewrite lang_ci. split.
      * intros (x & -> & Hx). constructor; [exact Hx | constructor].
      * intros Hs. inversion Hs as [|? x ? t Hx Ht]; subst. inversion Ht; subst.
        exists x. split; [reflexivity | exact Hx].
    + change (ci_word (c :: c' :: w)) with (RSeq (ci c) (ci_word (c' :: w))).
      rewrite lang_seq_iff. split.
      * intros (s1 & s2 & -> & H1 & H2). apply lang_ci in H1 as (x & -> & Hx).
        apply IH in H2. constructor; assumption.
      * intros Hs. inversion Hs as [|? x ? t Hx Ht]; subst.
        exists [x], t. split; [reflexivity|]. split.
        -- apply lang_ci. exists x. split; [reflexivity | exact Hx].
        -- apply IH. exact Ht.
Qed.

Lemma lang_plural (e : list N) : lang (ROpt (ci 115)) e <-> plural e.
Proof.
  unfold plural. rewrite lang_opt_iff, lang_ci. reflexivity.
Qed.

Lemma lang_word_plural w (s : list N) :
  lang (RSeq (ci_word w) (ROpt (ci 115))) s <->
  exists x e, s = x ++ e /\ ci_eq w x /\ plural e.
Proof.
  rewrite lang_seq_iff. split; intros (x & e & Hs & Hx & He); exists x, e;
    (split; [exact Hs|]); split;
    try (apply lang_ci_word; exact Hx); try (apply lang_plural; exact He).
Qed.

Lemma lang_to_do (s : list N) :
  lang (RSeq (ci_word (str "to"))
          (RSeq ws_star
             (RSeq (ROpt (lit 45))
                (RSeq ws_star (RSeq (ci_word (str "do")) (ROpt (ci 115)))))))
    s <->
  exists t s1 d s2 x e,
    s = t ++ s1 ++ d ++ s2 ++ x ++ e /\ ci_eq (str "to") t /\ all_ws s1 /\
    (d = [] \/ d = [45%N]) /\ all_ws s2 /\ ci_eq (str "do") x /\ plural e.
Proof.
  split.
  - intros Hl.
    apply lang_seq_iff in Hl as (t & r1 & -> & Ht & Hl).
    apply lang_seq_iff in Hl as (s1 & r2 & -> & Hs1 & Hl).
    apply lang_seq_iff in Hl as (d & r3 & -> & Hd & Hl).
    apply lang_seq_iff in Hl as (s2 & r4 & -> & Hs2 & Hl).
    apply lang_word_plural in Hl as (x & e & -> & Hx & He).
    exists t, s1, d, s2, x, e. split; [reflexivity|].
    split; [apply lang_ci_word, Ht|]. split; [apply lang_star_iff, Hs1|].
    split; [|split; [apply lang_star_iff, Hs2 | split; assumption]].
    apply lang_opt_iff in Hd as [Hd | Hd]; [left; exact Hd|].
    right. apply lang_lit, Hd.
  - intros (t & s1 & d & s2 & x & e & -> & Ht & Hs1 & Hd & Hs2 & Hx & He).
    apply lang_seq; [apply lang_ci_word, Ht|].
    apply lang_seq; [apply lang_star_iff, Hs1|].
    apply lang_seq; [apply lang_opt_iff; destruct Hd as [-> | ->];
                     [left; reflexivity | right; apply lang_lit; reflexivity]|].
    apply lang_seq; [apply lang_star_iff, Hs2|].
    apply lang_word_plural. exists x, e. repeat split; assumption.
Qed.

(** The language of the action pattern, in words. *)
Lemma lang_action_regex (mid : list N) :
  lang action_regex mid <-> action_phrase mid.
Proof.
  unfold action_regex, action_phrase, action_object. split.
  - intros Hl.
    apply lang_seq_iff in Hl as (a & r1 & -> & Ha & Hl).
    apply lang_seq_iff in Hl as (sp & w & -> & Hsp & Hl).
    exists a, sp, w. split; [reflexivity|].
    split; [apply lang_ci_word, Ha|]. split; [apply lang_star_iff, Hsp|].
    apply lang_alt_iff in Hl as [Hl | Hl];
      [left; apply lang_word_plural, Hl|].
    apply lang_alt_iff in Hl as [Hl | Hl];
      [right; left; apply lang_word_plural, Hl|].
    apply lang_alt_iff in Hl as [Hl | Hl];
      [right; right; left; apply lang_to_do, Hl|].
    right; right; right. apply lang_word_plural, Hl.
  - intros (a & sp & w & -> & Ha & Hsp & Hw).
    apply lang_seq; [apply lang_ci_word, Ha|].
    apply lang_seq; [apply lang_star_iff, Hsp|].
    destruct Hw as [Hw | [Hw | [Hw | Hw]]].
    + apply lang_alt_l, lang_word_plural, Hw.
    + apply lang_alt_r, lang_alt_l, lang_word_plural, Hw.
    + apply lang_alt_r, lang_alt_r, lang_alt_l, lang_to_do, Hw.
    + apply lang_alt_r, lang_alt_r, lang_alt_r, lang_word_plural, Hw.
Qed.

(** A header passes the test of the action pattern exactly when an action
    phrase occurs in it. *)
Lemma action_regex_test_spec (k : list N) :
  regex_test action_regex k = true <->
  exists pre mid post, k = pre ++ mid ++ post /\ action_phrase mid.
Proof.
  rewrite regex_test_spec. split; intros (pre & mid & post & Hk & Hl);
    exists pre, mid, post; (split; [exact Hk|]); apply lang_action_regex, Hl.
Qed.

(** ** The normaliser *)

Lemma col_values :
  col "date" = Str H_DATE /\ col "timestamp" = Str H_TIMESTAMP /\
  col "project" = Str H_PROJECT /\ col "action_points" = Str H_ACTION /\
  col "meeting_id" = Undefined.
Proof. repeat split; reflexivity. Qed.

Lemma get_own (raw : list (list N * list N)) (k : list N) :
  get raw (Str k) = match own raw k with Some v => Str v | None => Undefined end.
Proof. reflexivity. Qed.

Lemma js_or_non_null (a : value) (d : list N) :
  d <> [] -> non_null (js_or a (Str d)).
Proof.
  intros Hd. unfold js_or, non_null.
  destruct a as [| |[|c s]]; simpl; split; congruence.
Qed.

Lemma splitList_elements (v : value) :
  Forall (fun s => s <> [] /\ no_ws_at_ends s) (splitList v).
Proof.
  unfold splitList. destruct (negb (truthy v)); [constructor|].
  apply List.Forall_forall. intros s Hs.
  apply filter_In in Hs as [Hin Hne]. split.
  - destruct s; [discriminate | congruence].
  - apply in_map_iff in Hin as (p & <- & _). apply trim_no_ws_at_ends.
Qed.

Lemma pickColumn_exact (raw : list (list N * list N)) (re : regex) (v : list N) :
  own raw H_ACTION = Some v -> pickColumn raw (Str H_ACTION) re = Str v.
Proof.
  intros Hv. unfold pickColumn, hasOwnProperty, get. simpl ToString.
  rewrite Hv. reflexivity.
Qed.

Lemma pickColumn_scan (raw : list (list N * list N)) (re : regex) :
  own raw H_ACTION = None ->
  pickColumn raw (Str H_ACTION) re =
  match List.find (regex_test re) (keys raw) with
  | Some k => get raw (Str k)
  | None => Undefined
  end.
Proof.
  intros Hv. unfold pickColumn, hasOwnProperty. simpl ToString.
  rewrite Hv. reflexivity.
Qed.

Lemma first_match (re : regex) (pre post : list (list N * list N)) k v :
  Forall (fun kv => regex_test re kv.1 = false) pre ->
  regex_test re k = true ->
  List.find (regex_test re) (keys (pre ++ (k, v) :: post)) = Some k /\
  own (pre ++ (k, v) :: post) k = Some v.
Proof.
  intros Hpre Hk. induction Hpre as [|[k' v'] pre Hk' _ [IH1 IH2]]; simpl.
  - rewrite Hk. unfold str_eqb. rewrite bool_decide_eq_true_2 by reflexivity.
    split; reflexivity.
  - simpl in Hk'. rewrite Hk'. unfold str_eqb.
    rewrite bool_decide_eq_false_2 by congruence. split; assumption.
Qed.

Lemma no_match (re : regex) (raw : list (list N * list N)) :
  Forall (fun kv => regex_test re kv.1 = false) raw ->
  List.find (regex_test re) (keys raw) = None.
Proof.
  induction 1 as [|[k v] raw Hk _ IH]; simpl; [reflexivity|].
  simpl in Hk. rewrite Hk. exact IH.
Qed.

Section Normaliser.
Context {E : Engine}.

Lemma normalizeRecord_action_items (raw : list (list N * list N)) :
  action_items (normalizeRecord raw) =
  splitList (js_or (pickColumn raw (Str H_ACTION) action_regex) (Str [])).
Proof. reflexivity. Qed.

(** C2.  A row whose project header is absent or holds the empty string
    is normalised to the project "Unspecified Project"; [groupByProject]
    keeps every such record, all in the one group under that key. *)
Theorem missing_project_is_unspecified :
  (forall raw : list (list N * list N),
      own raw H_PROJECT = None \/ own raw H_PROJECT = Some [] ->
      project (normalizeRecord raw) = Str UNSPECIFIED) /\
  (forall (rows : list (list (list N * list N))) raw,
      In raw rows ->
      own raw H_PROJECT = None \/ own raw H_PROJECT = Some [] ->
      let groups := groupByProject (List.map normalizeRecord rows) in
      List.NoDup (List.map fst groups) /\
      exists g,
        Map_get groups (Str UNSPECIFIED) = Some g /\
        In (normalizeRecord raw) g /\
        Permutation g (grp (Str UNSPECIFIED) (List.map normalizeRecord rows))).
Proof.
  assert (forall raw : list (list N * list N),
             own raw H_PROJECT = None \/ own raw H_PROJECT = Some [] ->
             project (normalizeRecord raw) = Str UNSPECIFIED) as Hproj.
  { intros raw Hraw.
    change (project (normalizeRecord raw))
      with (js_or (get raw (Str H_PROJECT)) (Str UNSPECIFIED)).
    rewrite get_own. destruct Hraw as [-> | ->]; reflexivity. }
  split; [exact Hproj|].
  intros rows raw Hin Hraw groups. split; [apply groupByProject_keys_NoDup|].
  assert (In (normalizeRecord raw)
             (grp (Str UNSPECIFIED) (List.map normalizeRecord rows))) as Hg.
  { apply filter_In. split; [apply in_map, Hin|].
    unfold group_key. rewrite (Hproj raw Hraw). reflexivity. }
  subst groups. rewrite groupByProject_get.
  destruct (grp (Str UNSPECIFIED) (List.map normalizeRecord rows))
    as [|r g0] eqn:Hgrp; [destruct Hg|].
  eexists. split; [reflexivity|]. split.
  - eapply Permutation_in; [|exact Hg]. symmetry. apply Array_sort_perm.
  - apply Array_sort_perm.
Qed.

Lemma dateRaw_is_raw_date_text (raw : list (list N * list N)) :
  let dateRaw := js_or (get raw (Str H_DATE)) (get raw (Str H_TIMESTAMP)) in
  match dateRaw with Str s => s | _ => [] end = raw_date_text raw /\
  truthy dateRaw = nonempty (raw_date_text raw) /\
  (truthy dateRaw = true -> ToString dateRaw = raw_date_text raw).
Proof.
  cbv zeta. rewrite !get_own. unfold raw_date_text.
  destruct (own raw H_DATE) as [[|c s]|];
    destruct (own raw H_TIMESTAMP) as [[|c' s']|]; simpl;
    repeat split; try reflexivity; discriminate.
Qed.

(** C7.  Invariants of a normalised record: project, topic and inputs
    are never null or undefined; every subtopic and action item is
    non-empty and has no white space at either end.  The date and its
    label are decided by the raw date text (the date cell, else the
    timestamp cell, else the empty string): when that text is not empty
    and parses, the record carries the parsed date and date_label is its
    year-month-day form; when it is empty or does not parse, the record
    has no date and date_label is the raw text itself.  The two sequences
    and date_label are an array and a string by construction. *)
Theorem normalizeRecord_invariants (raw : list (list N * list N)) :
  let r := normalizeRecord raw in
  let dateRaw := js_or (get raw (Str H_DATE)) (get raw (Str H_TIMESTAMP)) in
  non_null (project r) /\ non_null (topic r) /\ non_null (my_inputs r) /\
  Forall (fun s => s <> [] /\ no_ws_at_ends s) (subtopics r) /\
  Forall (fun s => s <> [] /\ no_ws_at_ends s) (action_items r) /\
  match date r with
  | Some t =>
      Date_parse (ToString dateRaw) = Some t /\ date_label r = toYMD (Some t)
  | None =>
      date_label r = match dateRaw with Str s => s | _ => [] end
  end /\
  (forall t,
      raw_date_text raw <> [] -> Date_parse (raw_date_text raw) = Some t ->
      date r = Some t /\ date_label r = toYMD (Some t)) /\
  (raw_date_text raw = [] \/ Date_parse (raw_date_text raw) = None ->
   date r = None /\ date_label r = raw_date_text raw).
Proof.
  intros r dateRaw. subst r.
  split; [apply js_or_non_null; discriminate|].
  split; [apply js_or_non_null; discriminate|].
  split; [apply js_or_non_null; discriminate|].
  split; [apply splitList_elements|].
  split; [apply splitList_elements|].
  change (date (normalizeRecord raw)) with (parseDateLoose dateRaw).
  change (date_label (normalizeRecord raw))
    with (match parseDateLoose dateRaw with
          | Some _ => toYMD (parseDateLoose dateRaw)
          | None => ToString (js_or dateRaw (Str []))
          end).
  destruct (dateRaw_is_raw_date_text raw) as (Htext & Htruthy & Hstring).
  fold dateRaw in Htext, Htruthy, Hstring.
  assert (ToString (js_or dateRaw (Str [])) = raw_date_text raw) as Hlabel.
  { rewrite <- Htext. destruct dateRaw as [| |[|c s]]; reflexivity. }
  split; [|split].
  - destruct (parseDateLoose dateRaw) as [t|] eqn:Hp.
    + split; [|reflexivity]. unfold parseDateLoose in Hp.
      destruct (negb (truthy dateRaw)); [discriminate | exact Hp].
    + destruct dateRaw as [| |[|c s]]; reflexivity.
  - intros t Hne Hparse. unfold parseDateLoose.
    assert (truthy dateRaw = true) as Ht.
    { rewrite Htruthy. destruct (raw_date_text raw); [congruence | reflexivity]. }
    rewrite Ht, (Hstring Ht), Hparse. simpl. split; reflexivity.
  - intros Hno. unfold parseDateLoose.
    destruct (truthy dateRaw) eqn:Ht; simpl.
    + rewrite (Hstring eq_refl). destruct Hno as [Hno | Hno].
      * rewrite Hno in Htruthy. discriminate Htruthy.
      * rewrite Hno. split; [reflexivity | exact Hlabel].
    + split; [reflexivity | exact Hlabel].
Qed.

(** C9.  The column map has no meeting_id entry, so the lookup uses the
    key "undefined": unless the row has a header spelled that way,
    meeting_id is the empty string whatever the row holds. *)
Theorem meeting_id_is_empty :
  col "meeting_id" = Undefined /\
  forall raw : list (list N * list N),
    own raw (str "undefined") = None ->
    meeting_id (normalizeRecord raw) = Str [].
Proof.
  split; [reflexivity|]. intros raw Hraw.
  change (meeting_id (normalizeRecord raw))
    with (js_or (get raw Undefined) (Str [])).
  unfold get. simpl ToString. rewrite Hraw. reflexivity.
Qed.

(** C10.  When the row has the header "Action Points", its cell is what
    [pickColumn] returns and no other header is looked at; with an empty
    cell the action items are the empty sequence. *)
Theorem exact_action_header_wins (raw : list (list N * list N)) :
  (forall v, own raw H_ACTION = Some v ->
             pickColumn raw (col "action_points") action_regex = Str v) /\
  (own raw H_ACTION = Some [] -> action_items (normalizeRecord raw) = []).
Proof.
  split.
  - intros v Hv. apply pickColumn_exact, Hv.
  - intros Hv. rewrite normalizeRecord_action_items.
    rewrite (pickColumn_exact raw action_regex [] Hv). reflexivity.
Qed.

(** C3 (as amended).  The action items come from the cell under the
    header "Action Points" when the row has that header, be the cell
    empty or not; when the row has no such header, from the cell under
    the first header, in header order, that the pattern matches; and are
    empty when no header matches.  A header matches when it contains, in
    any letter case, the word action, optional white space, and
    point(s), item(s), todo(s) or to-do(s).  The header
    "Action Items (for next week)" matches: a row without the exact
    header in which it is the first matching header takes its action
    items from that column. *)
Theorem action_items_resolution (raw : list (list N * list N)) :
  (forall v, own raw H_ACTION = Some v ->
             action_items (normalizeRecord raw) = splitList (Str v)) /\
  (forall pre k v post,
      own raw H_ACTION = None ->
      raw = pre ++ (k, v) :: post ->
      Forall (fun kv => regex_test action_regex kv.1 = false) pre ->
      regex_test action_regex k = true ->
      action_items (normalizeRecord raw) = splitList (Str v)) /\
  (own raw H_ACTION = None ->
   Forall (fun kv => regex_test action_regex kv.1 = false) raw ->
   action_items (normalizeRecord raw) = []) /\
  (forall k, regex_test action_regex k = true <->
             exists pre mid post, k = pre ++ mid ++ post /\ action_phrase mid) /\
  regex_test action_regex (str "Action Items (for next week)") = true /\
  (forall pre v post,
      own raw H_ACTION = None ->
      raw = pre ++ (str "Action Items (for next week)", v) :: post ->
      Forall (fun kv => regex_test action_regex kv.1 = false) pre ->
      action_items (normalizeRecord raw) = splitList (Str v)).
Proof.
  assert (forall pre k v post,
             own raw H_ACTION = None ->
             raw = pre ++ (k, v) :: post ->
             Forall (fun kv => regex_test action_regex kv.1 = false) pre ->
             regex_test action_regex k = true ->
             action_items (normalizeRecord raw) = splitList (Str v)) as Hscan.
  { intros pre k v post Hno -> Hpre Hk.
    rewrite normalizeRecord_action_items, (pickColumn_scan _ _ Hno).
    destruct (first_match action_regex pre post k v Hpre Hk) as [-> Hown].
    rewrite get_own, Hown. destruct v; reflexivity. }
  split; [|split; [|split; [|split; [exact action_regex_test_spec |
                                     split; [reflexivity|]]]]];
    [| | |intros pre v post Hno Hraw Hpre;
          exact (Hscan pre _ v post Hno Hraw Hpre eq_refl)].
  - intros v Hv. rewrite normalizeRecord_action_items.
    rewrite (pickColumn_exact raw action_regex v Hv).
    destruct v; reflexivity.
  - intros pre k v post Hno -> Hpre Hk.
    rewrite normalizeRecord_action_items, (pickColumn_scan _ _ Hno).
    destruct (first_match action_regex pre post k v Hpre Hk) as [-> Hown].
    rewrite get_own, Hown. destruct v; reflexivity.
  - intros Hno Hraw.
    rewrite normalizeRecord_action_items, (pickColumn_scan _ _ Hno).
    rewrite (no_match _ _ Hraw). reflexivity.
Qed.

End Normaliser.

(** ** The filter *)

Lemma startsWith_spec (s p : list N) :
  startsWith s p = true <-> exists post, s = p ++ post.
Proof.
  revert s. induction p as [|a p IH]; intros s; simpl.
  - split; [intros _; exists s; reflexivity | destruct s; reflexivity].
  - destruct s as [|b s]; simpl.
    + split; [discriminate | intros (post & Hp); discriminate].
    + unfold cu_eqb. rewrite andb_true_iff, N.eqb_eq, IH. split.
      * intros (-> & post & ->). exists post. reflexivity.
      * intros (post & [= -> ->]). split; [reflexivity | exists post; reflexivity].
Qed.

Lemma includes_spec (s q : list N) :
  includes s q = true <-> occurs_in q s.
Proof.
  unfold occurs_in. induction s as [|b s IH]; cbn [includes].
  - rewrite orb_false_r, startsWith_spec. split.
    + intros (post & Hp). exists [], post. exact Hp.
    + intros (pre & post & Hp). symmetry in Hp.
      apply app_eq_nil in Hp as [-> Hp]. exists post. symmetry. exact Hp.
  - rewrite orb_true_iff, startsWith_spec, IH. split.
    + intros [(post & Hp) | (pre & post & Hp)].
      * exists [], post. exact Hp.
      * exists (b :: pre), post. simpl. rewrite Hp. reflexivity.
    + intros ([|c pre] & post & Hp); simpl in Hp.
      * left. exists post. exact Hp.
      * right. injection Hp as -> ->. exists pre, post. reflexivity.
Qed.

Section Filter.
Context {E : Engine}.

Lemma bound_spec (text : list N) (f : Z) :
  bound text = Some (Some f) <-> text <> [] /\ Date_parse text = Some f.
Proof.
  unfold bound. destruct text as [|c text]; simpl.
  - split; [discriminate | intros [Hne _]; congruence].
  - split; [intros [= ->]; split; [discriminate | reflexivity]
           | intros [_ ->]; reflexivity].
Qed.

Lemma keep_conjunction pf sf df dt (ql : list N) (r : MeetingRecord) :
  keep pf sf df dt ql r =
  project_ok pf r && student_ok sf r && from_ok df r && to_ok dt r
  && query_ok ql r.
Proof.
  unfold keep, project_ok, student_ok, from_ok, to_ok, query_ok.
  destruct (str_eqb pf (str "ALL")), (strict_eqb (project r) (Str pf)),
    (str_eqb sf (str "ALL")), (strict_eqb (student r) (Str sf)); simpl;
    try reflexivity.
  all: destruct df as [[f|]|], dt as [[t|]|], (date r) as [d|]; simpl;
    try reflexivity.
  all: repeat match goal with
         | |- context [?a <? ?b] => destruct (a <? b); simpl
         end; try reflexivity.
  all: destruct (nonempty ql); simpl; try reflexivity.
  all: destruct (includes (haystack r) ql); reflexivity.
Qed.

Lemma project_ok_spec pf (r : MeetingRecord) :
  project_ok pf r = true <-> pf = str "ALL" \/ project r = Str pf.
Proof.
  unfold project_ok, str_eqb, strict_eqb.
  rewrite orb_true_iff, !bool_decide_eq_true. reflexivity.
Qed.

Lemma student_ok_spec sf (r : MeetingRecord) :
  student_ok sf r = true <-> sf = str "ALL" \/ student r = Str sf.
Proof.
  unfold student_ok, str_eqb, strict_eqb.
  rewrite orb_true_iff, !bool_decide_eq_true. reflexivity.
Qed.

Lemma from_ok_spec (dateFrom : list N) (r : MeetingRecord) :
  from_ok (bound dateFrom) r = true <->
  forall d f, dateFrom <> [] -> date r = Some d ->
              Date_parse dateFrom = Some f -> f <= d.
Proof.
  unfold from_ok, bound, time_lt.
  destruct dateFrom as [|c s]; simpl.
  - split; [intros _ d f Hne; congruence | reflexivity].
  - destruct (date r) as [d|]; [|split; [intros _ d f _ [=] | reflexivity]].
    destruct (Date_parse (c :: s)) as [f|]; simpl.
    + rewrite negb_true_iff, Z.ltb_ge. split.
      * intros Hle d' f' _ [= <-] [= <-]. exact Hle.
      * intros Hle. apply Hle; [discriminate | reflexivity | reflexivity].
    + split; [intros _ d' f' _ _ [=] | reflexivity].
Qed.

Lemma to_ok_spec (dateTo : list N) (r : MeetingRecord) :
  to_ok (bound dateTo) r = true <->
  forall d t, dateTo <> [] -> date r = Some d ->
              Date_parse dateTo = Some t -> d <= t.
Proof.
  unfold to_ok, bound, time_lt.
  destruct dateTo as [|c s]; simpl.
  - split; [intros _ d f Hne; congruence | reflexivity].
  - destruct (date r) as [d|]; [|split; [intros _ d f _ [=] | reflexivity]].
    destruct (Date_parse (c :: s)) as [t|]; simpl.
    + rewrite negb_true_iff, Z.ltb_ge. split.
      * intros Hle d' t' _ [= <-] [= <-]. exact Hle.
      * intros Hle. apply Hle; [discriminate | reflexivity | reflexivity].
    + split; [intros _ d' f' _ _ [=] | reflexivity].
Qed.

Lemma query_ok_spec (ql : list N) (r : MeetingRecord) :
  query_ok ql r = true <-> matches_query ql r.
Proof.
  unfold query_ok, matches_query.
  rewrite orb_true_iff, includes_spec.
  destruct ql; simpl; [tauto|]. split; intros [H|H]; try discriminate; auto.
Qed.

Lemma keep_spec pf sf dateFrom dateTo (ql : list N) (r : MeetingRecord) :
  keep pf sf (bound dateFrom) (bound dateTo) ql r = true <->
  satisfies pf sf dateFrom dateTo ql r.
Proof.
  rewrite keep_conjunction, !andb_true_iff.
  rewrite project_ok_spec, student_ok_spec, from_ok_spec, to_ok_spec,
    query_ok_spec.
  unfold satisfies. tauto.
Qed.

Lemma In_filteredRecords records pf sf dateFrom dateTo q (r : MeetingRecord) :
  In r (filteredRecords records pf sf dateFrom dateTo q) <->
  In r records /\ satisfies pf sf dateFrom dateTo (toLowerCase (trim q)) r.
Proof.
  unfold filteredRecords. rewrite filter_In, keep_spec. reflexivity.
Qed.

(** C4.  A record without a date passes the filter with date bounds
    exactly when it passes it without them; a record that the bounds
    remove has a date that lies strictly before the from-bound or strictly
    after the to-bound, and every such record is removed. *)
Theorem date_bounds_spare_undated_records
  (records : list MeetingRecord) (pf sf dateFrom dateTo q : list N) :
  (forall r, date r = None ->
             (In r (filteredRecords records pf sf dateFrom dateTo q) <->
              In r (filteredRecords records pf sf [] [] q))) /\
  (forall r,
      In r (filteredRecords records pf sf [] [] q) ->
      ~ In r (filteredRecords records pf sf dateFrom dateTo q) ->
      exists d, date r = Some d /\
        ((exists f, dateFrom <> [] /\ Date_parse dateFrom = Some f /\ d < f) \/
         (exists t, dateTo <> [] /\ Date_parse dateTo = Some t /\ t < d))) /\
  (forall r d b,
      date r = Some d ->
      (dateFrom <> [] /\ Date_parse dateFrom = Some b /\ d < b) \/
      (dateTo <> [] /\ Date_parse dateTo = Some b /\ b < d) ->
      ~ In r (filteredRecords records pf sf dateFrom dateTo q)).
Proof.
  split; [|split].
  - intros r Hnone. rewrite !In_filteredRecords. unfold satisfies.
    split; intros (Hin & Hp & Hs & _ & _ & Hq); repeat split;
      try assumption; intros d f Hne; congruence.
  - intros r Hin Hout. unfold filteredRecords in Hin, Hout.
    rewrite filter_In in Hin, Hout. destruct Hin as [Hin Hk].
    assert (keep pf sf (bound dateFrom) (bound dateTo)
              (toLowerCase (trim q)) r = false) as Hk'.
    { destruct (keep pf sf (bound dateFrom) (bound dateTo) _ r) eqn:Hk';
        [exfalso; apply Hout; split; [exact Hin | reflexivity] | reflexivity]. }
    rewrite keep_conjunction in Hk, Hk'. simpl bound in Hk.
    rewrite !andb_true_iff in Hk. destruct Hk as ((((Hp & Hs) & _) & _) & Hq).
    rewrite Hp, Hs, Hq in Hk'. simpl in Hk'. rewrite andb_true_r in Hk'.
    apply andb_false_iff in Hk'.
    unfold from_ok, to_ok, bound, time_lt in Hk'.
    destruct (date r) as [d|]; [exists d; split; [reflexivity|] |].
    + destruct Hk' as [Hk'|Hk']; [left | right].
      * destruct dateFrom as [|c s]; [discriminate|]. simpl in Hk'.
        destruct (Date_parse (c :: s)) as [f|]; [|discriminate].
        exists f. apply negb_false_iff, Z.ltb_lt in Hk'.
        split; [discriminate | split; [reflexivity | exact Hk']].
      * destruct dateTo as [|c s]; [discriminate|]. simpl in Hk'.
        destruct (Date_parse (c :: s)) as [t|]; [|discriminate].
        exists t. apply negb_false_iff, Z.ltb_lt in Hk'.
        split; [discriminate | split; [reflexivity | exact Hk']].
    + destruct Hk' as [Hk'|Hk'];
        [destruct (nonempty dateFrom) | destruct (nonempty dateTo)];
        discriminate.
  - intros r d b Hd Hb. rewrite In_filteredRecords. unfold satisfies.
    intros (_ & _ & _ & Hf & Ht & _).
    destruct Hb as [(Hne & Hp & Hlt) | (Hne & Hp & Hlt)].
    + specialize (Hf d b Hne Hd Hp). lia.
    + specialize (Ht d b Hne Hd Hp). lia.
Qed.

(** C5 (as amended).  The filter keeps exactly the records that satisfy
    all five predicates together, in input order: project equal to the
    selector unless it is "ALL", student likewise, the two date bounds,
    and the query, trimmed and lower-cased, occurring in the lower-cased
    text made of student, project, topic, the subtopics joined by spaces
    and the inputs.  A query that is empty after trimming matches every
    record. *)
Theorem filter_keeps_conjunction
  (records : list MeetingRecord) (pf sf dateFrom dateTo q : list N) :
  let ql := toLowerCase (trim q) in
  filteredRecords records pf sf dateFrom dateTo q =
    List.filter
      (fun r => project_ok pf r && student_ok sf r
                && from_ok (bound dateFrom) r && to_ok (bound dateTo) r
                && query_ok ql r)
      records /\
  (forall r, In r (filteredRecords records pf sf dateFrom dateTo q) <->
             In r records /\ satisfies pf sf dateFrom dateTo ql r) /\
  (trim q = [] -> forall r, matches_query ql r).
Proof.
  intros ql. split; [|split].
  - unfold filteredRecords. apply filter_ext. intros r.
    apply keep_conjunction.
  - intros r. apply In_filteredRecords.
  - intros Hq r. left. subst ql. rewrite Hq. apply toLowerCase_empty.
Qed.

End Filter.

(** ** Grouping and sorting on a store *)

Section Store.
Implicit Types (h : gmap positive cell) (m : list (value * positive)).

Lemma alloc_fresh h c l h' :
  alloc h c = (l, h') -> h !! l = None /\ h' = <[l := c]> h.
Proof.
  unfold alloc. intros [= <- <-]. split; [|reflexivity].
  apply not_elem_of_dom, is_fresh.
Qed.

Lemma preserves_insert h0 h l c :
  preserves h0 h -> h0 !! l = None -> preserves h0 (<[l := c]> h).
Proof.
  intros Hp Hl l' c' Hl'. rewrite lookup_insert_ne by congruence.
  apply Hp, Hl'.
Qed.

Lemma preserves_push h0 h arr r :
  preserves h0 h -> h0 !! arr = None -> preserves h0 (push h arr r).
Proof.
  intros Hp Harr. unfold push.
  destruct (h !! arr) as [[|es]|]; try exact Hp.
  apply preserves_insert; assumption.
Qed.

Lemma preserves_sort h0 h arr :
  preserves h0 h -> h0 !! arr = None -> preserves h0 (sort_in_place h arr).
Proof.
  intros Hp Harr. unfold sort_in_place.
  destruct (h !! arr) as [[|es]|]; try exact Hp.
  apply preserves_insert; assumption.
Qed.

Lemma arrays_new_set h0 m k l :
  arrays_new h0 m -> h0 !! l = None -> arrays_new h0 (Map_set m k l).
Proof.
  intros Hm Hl. induction Hm as [|[k' l'] m Hk' Hm IH]; simpl.
  - repeat constructor. exact Hl.
  - destruct (strict_eqb k' k); constructor; try assumption.
Qed.

Lemma arrays_new_get h0 m k arr :
  arrays_new h0 m -> Map_get m k = Some arr -> h0 !! arr = None.
Proof.
  intros Hm Hg. apply Map_get_In in Hg.
  unfold arrays_new in Hm. rewrite List.Forall_forall in Hm.
  exact (Hm _ Hg).
Qed.

Lemma group_step_h_frame h0 h m r h' m' :
  preserves h0 h -> arrays_new h0 m ->
  group_step_h (h, m) r = (h', m') ->
  preserves h0 h' /\ arrays_new h0 m'.
Proof.
  intros Hp Hm. unfold group_step_h.
  destruct (negb (Map_has m (ref_key h r))) eqn:Hhas.
  - destruct (alloc h (CArray [])) as [l h1] eqn:Ha.
    apply alloc_fresh in Ha as [Hl ->].
    assert (h0 !! l = None) as Hl0.
    { destruct (h0 !! l) as [c|] eqn:Hc; [|reflexivity].
      apply Hp in Hc. congruence. }
    pose proof (arrays_new_set h0 m (ref_key h r) l Hm Hl0) as Hm1.
    pose proof (preserves_insert h0 h l (CArray []) Hp Hl0) as Hp1.
    destruct (Map_get (Map_set m (ref_key h r) l) (ref_key h r)) as [arr|] eqn:Hg;
      intros [= <- <-]; split; try assumption.
    apply preserves_push; [assumption|]. eapply arrays_new_get; eassumption.
  - destruct (Map_get m (ref_key h r)) as [arr|] eqn:Hg;
      intros [= <- <-]; split; try assumption.
    apply preserves_push; [assumption|]. eapply arrays_new_get; eassumption.
Qed.

Lemma group_fold_h_frame h0 es h m h' m' :
  preserves h0 h -> arrays_new h0 m ->
  List.fold_left group_step_h es (h, m) = (h', m') ->
  preserves h0 h' /\ arrays_new h0 m'.
Proof.
  revert h m. induction es as [|r es IH]; intros h m Hp Hm; cbn [List.fold_left].
  - intros [= <- <-]. split; assumption.
  - destruct (group_step_h (h, m) r) as [h1 m1] eqn:Hs.
    destruct (group_step_h_frame h0 h m r h1 m1 Hp Hm Hs) as [Hp1 Hm1].
    apply IH; assumption.
Qed.

Lemma sort_fold_frame h0 m h :
  preserves h0 h -> arrays_new h0 m ->
  preserves h0
    (List.fold_left (fun h' '(_, arr) => sort_in_place h' arr) m h).
Proof.
  intros Hp Hm. revert h Hp. induction Hm as [|[k arr] m Hk Hm IH]; intros h Hp; simpl.
  - exact Hp.
  - apply IH, preserves_sort; assumption.
Qed.

(** C8.  Run on a store, [groupByProject] and the sort applied after
    filtering change no object that existed before the call: every input
    record and the input array read the same afterwards.  What they
    return are arrays that did not exist before. *)
Theorem grouping_and_sorting_leave_input_unchanged h (input : positive) :
  (forall h' m,
      groupByProject_h h input = Some (h', m) ->
      (forall l c, h !! l = Some c -> h' !! l = Some c) /\
      Forall (fun kv => h !! kv.2 = None) m) /\
  (forall h' out,
      sortedRecords_h h input = Some (h', out) ->
      (forall l c, h !! l = Some c -> h' !! l = Some c) /\
      h !! out = None).
Proof.
  split.
  - intros h' m. unfold groupByProject_h.
    destruct (h !! input) as [[|es]|]; try discriminate.
    destruct (List.fold_left group_step_h es (h, [])) as [h1 m1] eqn:Hf.
    intros [= <- <-].
    destruct (group_fold_h_frame h es h [] h1 m1) as [Hp Hm];
      [intros l c Hl; exact Hl | constructor | exact Hf |].
    split; [|exact Hm]. apply sort_fold_frame; assumption.
  - intros h' out. unfold sortedRecords_h.
    destruct (h !! input) as [[|es]|]; try discriminate.
    destruct (alloc h (CArray es)) as [l h1] eqn:Ha.
    apply alloc_fresh in Ha as [Hl ->]. intros [= <- <-].
    split; [|exact Hl].
    apply preserves_sort; [|exact Hl].
    apply preserves_insert; [intros l' c Hl'; exact Hl' | exact Hl].
Qed.

End Store.

(** *** The store model computes the pure functions *)

Section Adequacy.
Implicit Types (h : gmap positive cell) (m : list (value * positive))
  (pm : list (value * list MeetingRecord)).

Lemma sort_insert_Forall2 {A B} (R : A -> B -> Prop) cmp1 cmp2 x y l1 l2 :
  (forall a b a' b', R a a' -> R b b' -> cmp1 a b = cmp2 a' b') ->
  R x y -> Forall2 R l1 l2 ->
  Forall2 R (sort_insert cmp1 x l1) (sort_insert cmp2 y l2).
Proof.
  intros Hc Hxy Hl. induction Hl as [|a b l1 l2 Hab Hl IH]; simpl.
  - repeat constructor. exact Hxy.
  - rewrite (Hc x a y b Hxy Hab).
    destruct (cmp2 y b <=? 0); repeat constructor; assumption.
Qed.

Lemma Array_sort_Forall2 {A B} (R : A -> B -> Prop) cmp1 cmp2 l1 l2 :
  (forall a b a' b', R a a' -> R b b' -> cmp1 a b = cmp2 a' b') ->
  Forall2 R l1 l2 ->
  Forall2 R (Array_sort cmp1 l1) (Array_sort cmp2 l2).
Proof.
  intros Hc Hl. induction Hl as [|a b l1 l2 Hab Hl IH]; simpl.
  - constructor.
  - apply sort_insert_Forall2; assumption.
Qed.

Lemma Map_set_new {V} (m : list (value * V)) k v :
  Map_get m k = None -> Map_set m k v = m ++ [(k, v)].
Proof.
  induction m as [|[k' v'] m IH]; simpl; [reflexivity|].
  destruct (strict_eqb k' k); [discriminate|]. intros Hg. rewrite IH by exact Hg.
  reflexivity.
Qed.

Lemma Map_set_last {V} (m : list (value * V)) k v v' :
  Map_get m k = None -> Map_set (m ++ [(k, v)]) k v' = m ++ [(k, v')].
Proof.
  induction m as [|[k0 v0] m IH]; simpl.
  - unfold strict_eqb. rewrite bool_decide_eq_true_2 by reflexivity. reflexivity.
  - destruct (strict_eqb k0 k); [discriminate|]. intros Hg.
    rewrite IH by exact Hg. reflexivity.
Qed.

Lemma holds_other h0 h arr c kv kg :
  holds h0 h kv kg -> kv.2 <> arr -> holds h0 (<[arr := c]> h) kv kg.
Proof.
  intros (Hk & Hnew & es & Hes & Hrefs) Hne. split; [exact Hk|].
  split; [exact Hnew|]. exists es. split; [|exact Hrefs].
  rewrite lookup_insert_ne by congruence. exact Hes.
Qed.

Lemma holds_all_other h0 h arr c m pm :
  Forall2 (holds h0 h) m pm -> ~ In arr (List.map snd m) ->
  Forall2 (holds h0 (<[arr := c]> h)) m pm.
Proof.
  induction 1 as [|kv kg m pm Hh Hm IH]; simpl; intros Hnin; constructor.
  - apply holds_other; [exact Hh | tauto].
  - apply IH. tauto.
Qed.

Lemma holds_get_None h0 h m pm k :
  Forall2 (holds h0 h) m pm -> Map_get m k = None -> Map_get pm k = None.
Proof.
  induction 1 as [|[k1 a] [k2 g] m pm (Hk & _) Hm IH]; simpl; [reflexivity|].
  simpl in Hk. subst k2. destruct (strict_eqb k1 k); [discriminate | exact IH].
Qed.

Lemma holds_in_store h0 h m pm arr :
  Forall2 (holds h0 h) m pm -> In arr (List.map snd m) -> is_Some (h !! arr).
Proof.
  induction 1 as [|[k1 a] [k2 g] m pm (_ & _ & es & Hes & _) Hm IH]; simpl.
  - tauto.
  - intros [<- | Hin]; [eexists; exact Hes | exact (IH Hin)].
Qed.

Lemma holds_arrays_new h0 h m pm :
  Forall2 (holds h0 h) m pm -> arrays_new h0 m.
Proof.
  induction 1 as [|kv kg m pm (_ & Hnew & _) Hm IH]; constructor; assumption.
Qed.

Lemma holds_push h0 h m pm k arr r rec :
  Forall2 (holds h0 h) m pm -> List.NoDup (List.map snd m) ->
  Map_get m k = Some arr -> deref h0 r = Some rec ->
  exists g,
    Map_get pm k = Some g /\
    Forall2 (holds h0 (push h arr r)) m (Map_set pm k (g ++ [rec])).
Proof.
  intros Hm. revert arr.
  induction Hm as [|[k1 a] [k2 g] m pm Hh Hm IH]; intros arr Hnd Hg Hr;
    simpl in *; [discriminate|].
  pose proof Hh as (Hk & Hnew & es & Hes & Hrefs). simpl in Hk, Hnew, Hes, Hrefs.
  subst k2. apply List.NoDup_cons_iff in Hnd as [Hnin Hnd].
  destruct (strict_eqb k1 k) eqn:Hk1.
  - injection Hg as <-. exists g. split; [reflexivity|].
    unfold push. rewrite Hes. constructor.
    + split; [reflexivity|]. split; [exact Hnew|]. simpl.
      exists (es ++ [r]). split; [apply lookup_insert_eq|].
      apply Forall2_app; [exact Hrefs | repeat constructor; exact Hr].
    + apply holds_all_other; assumption.
  - destruct (IH arr Hnd Hg Hr) as (g' & Hg' & Hall).
    exists g'. split; [exact Hg'|].
    assert (a <> arr) as Hne.
    { intros ->. apply Hnin. apply Map_get_In in Hg.
      apply in_map_iff. exists (k, arr). split; [reflexivity | exact Hg]. }
    constructor; [|exact Hall].
    unfold push. destruct (h !! arr) as [[|es']|]; try exact Hh.
    apply holds_other; assumption.
Qed.

Lemma deref_preserved h0 h r rec :
  preserves h0 h -> deref h0 r = Some rec -> h !! r = Some (CRecord rec).
Proof.
  unfold deref. intros Hp Hr.
  destruct (h0 !! r) as [[rec'|]|] eqn:Hc; try discriminate.
  injection Hr as ->. apply Hp, Hc.
Qed.

Lemma group_step_h_adequate h0 h m pm r rec :
  preserves h0 h -> Forall2 (holds h0 h) m pm ->
  List.NoDup (List.map snd m) -> deref h0 r = Some rec ->
  exists h' m',
    group_step_h (h, m) r = (h', m') /\
    preserves h0 h' /\ Forall2 (holds h0 h') m' (group_step pm rec) /\
    List.NoDup (List.map snd m').
Proof.
  intros Hp Hm Hnd Hr.
  assert (ref_key h r = group_key rec) as Hkey.
  { unfold ref_key. rewrite (deref_preserved h0 h r rec Hp Hr). reflexivity. }
  destruct (group_step_h (h, m) r) as [h' m'] eqn:Hs.
  exists h', m'. split; [reflexivity|].
  destruct (group_step_h_frame h0 h m r h' m' Hp) as [Hp' _];
    [eapply holds_arrays_new; exact Hm | exact Hs |].
  split; [exact Hp'|].
  unfold group_step_h in Hs. rewrite Hkey in Hs. unfold group_step.
  set (key := group_key rec) in *. unfold Map_has in *.
  destruct (Map_get m key) as [arr|] eqn:Hg; simpl in Hs.
  - rewrite Hg in Hs. injection Hs as <- <-.
    destruct (holds_push h0 h m pm key arr r rec Hm Hnd Hg Hr) as (g & Hg' & Hall).
    rewrite Hg'. simpl. rewrite Hg'. split; assumption.
  - rewrite Map_get_set_eq in Hs. injection Hs as <- <-.
    pose proof (holds_get_None h0 h m pm key Hm Hg) as Hg'.
    rewrite Hg'. simpl. rewrite Map_get_set_eq.
    rewrite (Map_set_new pm key []) by exact Hg'.
    rewrite (Map_set_last pm key) by exact Hg'.
    rewrite (Map_set_new m key) by exact Hg.
    set (l := fresh (dom h)).
    assert (h !! l = None) as Hl by apply not_elem_of_dom, is_fresh.
    assert (h0 !! l = None) as Hl0.
    { destruct (h0 !! l) as [c|] eqn:Hc; [|reflexivity].
      apply Hp in Hc. congruence. }
    assert (~ In l (List.map snd m)) as Hnin.
    { intros Hin. destruct (holds_in_store h0 h m pm l Hm Hin) as [c Hc].
      congruence. }
    unfold push. rewrite lookup_insert_eq. rewrite insert_insert_eq. split.
    + apply Forall2_app.
      * apply holds_all_other; assumption.
      * repeat constructor; simpl; [exact Hl0|].
        exists [r]. split; [apply lookup_insert_eq|].
        repeat constructor. exact Hr.
    + rewrite map_app. simpl. apply NoDup_ListNoDup, NoDup_app.
      apply NoDup_ListNoDup in Hnd. split; [exact Hnd|]. split.
      * intros x Hx Hx'. apply list_elem_of_singleton in Hx'. subst x.
        apply Hnin, list_elem_of_In, Hx.
      * apply NoDup_singleton.
Qed.

Lemma group_fold_h_adequate h0 es rs h m pm :
  preserves h0 h -> Forall2 (holds h0 h) m pm ->
  List.NoDup (List.map snd m) ->
  Forall2 (fun e r => deref h0 e = Some r) es rs ->
  exists h' m',
    List.fold_left group_step_h es (h, m) = (h', m') /\
    preserves h0 h' /\
    Forall2 (holds h0 h') m' (List.fold_left group_step rs pm) /\
    List.NoDup (List.map snd m').
Proof.
  intros Hp Hm Hnd Hes. revert h m pm Hp Hm Hnd.
  induction Hes as [|r rec es rs Hr Hes IH]; intros h m pm Hp Hm Hnd;
    cbn [List.fold_left].
  - exists h, m. repeat split; assumption.
  - destruct (group_step_h_adequate h0 h m pm r rec Hp Hm Hnd Hr)
      as (h1 & m1 & -> & Hp1 & Hm1 & Hnd1).
    apply IH; assumption.
Qed.

Lemma sort_fold_other m h (a : positive) :
  ~ In a (List.map snd m) ->
  List.fold_left (fun h' '(_, arr) => sort_in_place h' arr) m h !! a = h !! a.
Proof.
  revert h. induction m as [|[k arr] m IH]; intros h Hnin; simpl in *;
    [reflexivity|].
  rewrite IH by tauto. unfold sort_in_place.
  destruct (h !! arr) as [[|es]|]; try reflexivity.
  apply lookup_insert_ne. tauto.
Qed.

Lemma ref_time_preserved h0 h e rec :
  preserves h0 h -> deref h0 e = Some rec -> ref_time h e = time_or_zero rec.
Proof.
  intros Hp He. unfold ref_time.
  rewrite (deref_preserved h0 h e rec Hp He). reflexivity.
Qed.

Lemma sort_fold_adequate h0 m pm h :
  preserves h0 h -> Forall2 (holds h0 h) m pm ->
  List.NoDup (List.map snd m) ->
  Forall2
    (holds h0 (List.fold_left (fun h' '(_, arr) => sort_in_place h' arr) m h))
    m (List.map (fun '(k, arr) => (k, Array_sort by_date_desc arr)) pm).
Proof.
  revert pm h. induction m as [|[k a] m IH]; intros pm h Hp Hm Hnd;
    inversion Hm as [|? [k' g] ? pm' Hh Hm']; subst; simpl.
  - constructor.
  - apply List.NoDup_cons_iff in Hnd as [Hnin Hnd].
    destruct Hh as (Hk & Hnew & es & Hes & Hrefs).
    simpl in Hk, Hnew, Hes, Hrefs. subst k'.
    assert (sort_in_place h a =
            <[a := CArray (Array_sort (fun x y => ref_time h y - ref_time h x) es)]> h)
      as Hsort by (unfold sort_in_place; rewrite Hes; reflexivity).
    constructor.
    + split; [reflexivity|]. split; [exact Hnew|]. simpl.
      eexists. split.
      * rewrite sort_fold_other by exact Hnin. rewrite Hsort.
        apply lookup_insert_eq.
      * apply Array_sort_Forall2; [|exact Hrefs].
        intros x y x' y' Hx Hy. unfold by_date_desc.
        rewrite (ref_time_preserved h0 h x x' Hp Hx).
        rewrite (ref_time_preserved h0 h y y' Hp Hy). reflexivity.
    + apply IH; [apply preserves_sort; assumption | | exact Hnd].
      rewrite Hsort. apply holds_all_other; assumption.
Qed.

Lemma refs_read h0 h es rs :
  preserves h0 h -> Forall2 (fun e r => deref h0 e = Some r) es rs ->
  mapM (deref h) es = Some rs.
Proof.
  intros Hp Hes. apply mapM_Some. eapply Forall2_impl; [exact Hes|].
  intros e r He. simpl in He. unfold deref.
  rewrite (deref_preserved h0 h e r Hp He). reflexivity.
Qed.

(** The store model and the functional model agree: on an array of
    references to the records [rs], [groupByProject_h] returns a map with
    the keys of [groupByProject rs], in the same order, whose arrays read
    as its groups; [sortedRecords_h] returns an array that reads as
    [sortedRecords rs]. *)
Lemma store_model_adequate h (input : positive) es rs :
  h !! input = Some (CArray es) -> mapM (deref h) es = Some rs ->
  (exists h' m,
      groupByProject_h h input = Some (h', m) /\
      Forall2 (fun kv kg => kv.1 = kg.1 /\ read_array h' kv.2 = Some kg.2)
        m (groupByProject rs)) /\
  (exists h' out,
      sortedRecords_h h input = Some (h', out) /\
      read_array h' out = Some (sortedRecords rs)).
Proof.
  intros Hin Hes. apply mapM_Some in Hes.
  assert (preserves h h) as Hp0 by (intros l c Hl; exact Hl).
  split.
  - unfold groupByProject_h. rewrite Hin.
    destruct (group_fold_h_adequate h es rs h [] [] Hp0)
      as (h1 & m1 & -> & Hp1 & Hm1 & Hnd1);
      [constructor | constructor | exact Hes |].
    eexists _, m1. split; [reflexivity|].
    pose proof (sort_fold_adequate h m1 _ h1 Hp1 Hm1 Hnd1) as Hs.
    pose proof (sort_fold_frame h m1 h1 Hp1 (holds_arrays_new _ _ _ _ Hm1)) as Hp2.
    unfold groupByProject.
    eapply Forall2_impl; [exact Hs|].
    intros kv kg (Hk & _ & es' & Hes' & Hrefs). split; [exact Hk|].
    unfold read_array. rewrite Hes'. eapply refs_read; eassumption.
  - unfold sortedRecords_h. rewrite Hin.
    destruct (alloc h (CArray es)) as [l h1] eqn:Ha.
    apply alloc_fresh in Ha as [Hl ->].
    eexists _, l. split; [reflexivity|].
    pose proof (preserves_insert h h l (CArray es) Hp0 Hl) as Hp1.
    pose proof (preserves_sort h _ l Hp1 Hl) as Hp2.
    set (h1 := <[l:=CArray es]> h) in *.
    assert (sort_in_place h1 l =
            <[l := CArray (Array_sort (fun a b => ref_time h1 b - ref_time h1 a) es)]> h1)
      as Hsort.
    { unfold sort_in_place. subst h1. rewrite lookup_insert_eq. reflexivity. }
    unfold read_array. rewrite Hsort in Hp2 |- *. rewrite lookup_insert_eq.
    eapply refs_read; [exact Hp2|].
    apply Array_sort_Forall2; [|exact Hes].
    intros x y x' y' Hx Hy. unfold by_date_desc.
    rewrite (ref_time_preserved h _ x x' Hp1 Hx).
    rewrite (ref_time_preserved h _ y y' Hp1 Hy). reflexivity.
Qed.

End Adequacy.

(** ** The statements on concrete inputs *)

(** The end-to-end scenario: two rows of project ProjA, grouped, give one
    group holding the review of 2025-02-10 before the kickoff of
    2025-01-10. *)
Example end_to_end_grouping :
  List.map (fun '(k, g) => (k, List.map date_label g))
    (groupByProject
       (List.map (normalizeRecord (E := utc_host)) [row_kickoff; row_review]))
  = [(Str (str "ProjA"), [str "2025-02-10"; str "2025-01-10"])].
Proof. reflexivity. Qed.

Lemma groups_sorted_newest_first_witness :
  newest_first [ex_d; ex_a; ex_e; ex_b] /\
  at_time 0 [ex_d; ex_a; ex_e; ex_b] = [ex_a; ex_e].
Proof.
  destruct (proj1 (groups_sorted_newest_first ex_records)
              (Str P_) [ex_d; ex_a; ex_e; ex_b] eq_refl)
    as (_ & Hsorted & Hstable & _).
  split; [exact Hsorted | exact (Hstable 0)].
Defined.

(** A record with no date comes before a record dated 1969-12-31, whose
    time value is negative. *)
Lemma undated_record_before_older_dated_record :
  ~ (forall records k g (i j : nat) a b,
        Map_get (groupByProject records) k = Some g ->
        g !! i = Some a -> g !! j = Some b ->
        date a = None -> date b <> None -> (j < i)%nat).
Proof.
  intros Hc.
  specialize (Hc [ex_a; ex_b] (Str P_) [ex_a; ex_b] 0%nat 1%nat ex_a ex_b
                eq_refl eq_refl eq_refl eq_refl).
  assert (date ex_b <> None) as Hb by discriminate.
  specialize (Hc Hb). lia.
Qed.

Lemma missing_project_is_unspecified_witness :
  project (normalizeRecord (E := utc_host) row_no_project) = Str UNSPECIFIED.
Proof.
  apply (proj1 (missing_project_is_unspecified (E := utc_host))).
  right. reflexivity.
Defined.

Lemma action_items_resolution_witness :
  action_items (normalizeRecord (E := utc_host) row_fallback)
  = [str "Email draft"; str "Book room"].
Proof.
  apply (proj1 (proj2 (action_items_resolution (E := utc_host) row_fallback))
           [(H_STUDENT, str "Bob")] H_ACTION_ITEMS
           (str "Email draft; Book room") []).
  - reflexivity.
  - reflexivity.
  - repeat constructor.
  - reflexivity.
Defined.

(** Two headers match the pattern; the items come from the first one,
    not from "Action Items (for next week)". *)
Lemma earlier_matching_header_wins :
  ~ (forall (raw : list (list N * list N)) v,
        own raw H_ACTION = None ->
        own raw H_ACTION_ITEMS = Some v ->
        action_items (normalizeRecord (E := utc_host) raw) = splitList (Str v)).
Proof.
  intros Hc.
  specialize (Hc row_two_matches (str "Y") eq_refl eq_refl).
  discriminate Hc.
Qed.

(** An empty "Action Points" cell does not start the scan: with a
    matching header in front of it the action items are still empty,
    where scanning on an empty cell would give the items of that header. *)
Lemma empty_exact_cell_is_not_scanned_past :
  ~ (forall raw : list (list N * list N),
        action_items (normalizeRecord (E := utc_host) raw)
        = splitList (js_or (action_cell_scanning_on_empty raw) (Str []))).
Proof.
  intros Hc. specialize (Hc row_scan_before_empty). discriminate Hc.
Qed.

Lemma normalizeRecord_invariants_witness :
  (date (normalizeRecord (E := utc_host) row_kickoff) = Some 1736467200000 /\
   date_label (normalizeRecord (E := utc_host) row_kickoff) = str "2025-01-10")
  /\
  (date (normalizeRecord (E := utc_host) row_bad_date) = None /\
   date_label (normalizeRecord (E := utc_host) row_bad_date) = str "next week").
Proof.
  destruct (normalizeRecord_invariants (E := utc_host) row_kickoff)
    as (_ & _ & _ & _ & _ & _ & Hparses & _).
  destruct (normalizeRecord_invariants (E := utc_host) row_bad_date)
    as (_ & _ & _ & _ & _ & _ & _ & Hfails).
  split.
  - apply (Hparses 1736467200000); [discriminate | reflexivity].
  - apply Hfails. right. reflexivity.
Defined.

Lemma date_bounds_spare_undated_records_witness :
  In ex_a (filteredRecords (E := utc_host) ex_records (str "ALL") (str "ALL")
             (str "2030-01-01") (str "2030-12-31") []) <->
  In ex_a (filteredRecords (E := utc_host) ex_records (str "ALL") (str "ALL")
             [] [] []).
Proof.
  apply (proj1 (date_bounds_spare_undated_records (E := utc_host) ex_records
                  (str "ALL") (str "ALL") (str "2030-01-01") (str "2030-12-31")
                  []) ex_a).
  reflexivity.
Defined.

Lemma filter_keeps_conjunction_witness :
  matches_query (E := utc_host)
    (toLowerCase (Engine := utc_host) (trim (str "   "))) ex_a.
Proof.
  apply (proj2 (proj2 (filter_keeps_conjunction (E := utc_host) ex_records
                         (str "ALL") (str "ALL") [] [] (str "   ")))).
  reflexivity.
Defined.

(** The query " alice", with a space in front, keeps a record of student
    Alice, although " alice" does not occur in the text of that record. *)
Lemma query_is_trimmed_before_matching :
  ~ (forall records pf sf dateFrom dateTo (q : list N) r,
        In r (filteredRecords (E := utc_host) records pf sf dateFrom dateTo q)
        <->
        In r records /\
        satisfies (E := utc_host) pf sf dateFrom dateTo
          (toLowerCase (Engine := utc_host) q) r).
Proof.
  intros Hc.
  destruct (proj1 (Hc [ex_a] (str "ALL") (str "ALL") [] [] (str " alice") ex_a))
    as (_ & _ & _ & _ & _ & Hq).
  - left. reflexivity.
  - destruct Hq as [Hq | Hq]; [discriminate|].
    apply includes_spec in Hq. discriminate Hq.
Qed.

Lemma splitList_semicolon_newline_witness :
  splitList (Str (str "A; B;" ++ [10%N] ++ str "C")) =
  [str "A"; str "B"; str "C"].
Proof.
  apply (proj1 (proj2 splitList_semicolon_newline)
           [str "A"; str " B"; str ""; str "C"] [59%N; 59%N; 10%N]).
  - reflexivity.
  - repeat (constructor; [first [left; reflexivity | right; reflexivity] |]).
    constructor.
  - repeat first [apply List.Forall_nil | apply List.Forall_cons];
      split; discriminate.
Defined.

Lemma grouping_and_sorting_leave_input_unchanged_witness :
  ex_store !! 3%positive = Some (CArray [1%positive; 2%positive]) /\
  match groupByProject_h ex_store 3 with
  | Some (h', m) =>
      h' !! 3%positive = Some (CArray [1%positive; 2%positive]) /\
      Forall (fun kv => ex_store !! kv.2 = None) m
  | None => False
  end.
Proof.
  split; [reflexivity|].
  destruct (groupByProject_h ex_store 3) as [[h' m]|] eqn:Hg.
  - destruct (proj1 (grouping_and_sorting_leave_input_unchanged ex_store 3)
                h' m Hg) as [Hframe Hnew].
    split; [apply Hframe; reflexivity | exact Hnew].
  - vm_compute in Hg. discriminate Hg.
Defined.

Lemma meeting_id_is_empty_witness :
  meeting_id (normalizeRecord (E := utc_host) row_no_project) = Str [].
Proof.
  apply (proj2 (meeting_id_is_empty (E := utc_host))). reflexivity.
Defined.

Lemma exact_action_header_wins_witness :
  action_items (normalizeRecord (E := utc_host) row_empty_action) = [].
Proof.
  apply (proj2 (exact_action_header_wins (E := utc_host) row_empty_action)).
  reflexivity.
Defined.

(** * Part III: further properties of the code *)

(** ** Sorting and grouping together *)

Lemma filter_StronglySorted {A} (R : A -> A -> Prop) (p : A -> bool) l :
  StronglySorted R l -> StronglySorted R (List.filter p l).
Proof.
  induction 1 as [|a l Hs IH Ha]; simpl; [constructor|].
  destruct (p a); [|exact IH]. constructor; [exact IH|].
  apply List.Forall_forall. intros x Hx. apply filter_In in Hx as [Hx _].
  rewrite List.Forall_forall in Ha. exact (Ha x Hx).
Qed.

Lemma filter_filter_comm {A} (p q : A -> bool) l :
  List.filter p (List.filter q l) = List.filter q (List.filter p l).
Proof.
  induction l as [|a l IH]; simpl; [reflexivity|].
  destruct (p a) eqn:Hp, (q a) eqn:Hq; simpl; rewrite ?Hp, ?Hq, IH; reflexivity.
Qed.

Lemma Array_sort_filter (p : MeetingRecord -> bool) (l : list MeetingRecord) :
  Array_sort by_date_desc (List.filter p l) =
  List.filter p (Array_sort by_date_desc l).
Proof.
  symmetry.
  apply (stable_sort_is_Array_sort time_or_zero by_date_desc by_date_desc_key).
  - apply filter_StronglySorted.
    apply (Array_sort_sorted time_or_zero by_date_desc by_date_desc_key).
  - intros t. rewrite filter_filter_comm.
    rewrite (Array_sort_stable time_or_zero by_date_desc by_date_desc_key).
    apply filter_filter_comm.
Qed.

Lemma Array_sort_sorted_input (l : list MeetingRecord) :
  newest_first l -> Array_sort by_date_desc l = l.
Proof.
  intros Hs. symmetry.
  apply (stable_sort_is_Array_sort time_or_zero by_date_desc by_date_desc_key);
    [exact Hs | reflexivity].
Qed.

(** X1.  Sorting is a normal form: records that are already newest first
    come back unchanged, so sorting twice is sorting once. *)
Theorem sortedRecords_idempotent (l : list MeetingRecord) :
  (newest_first l -> sortedRecords l = l) /\
  sortedRecords (sortedRecords l) = sortedRecords l.
Proof.
  split; [apply Array_sort_sorted_input|].
  apply Array_sort_sorted_input.
  apply (Array_sort_sorted time_or_zero by_date_desc by_date_desc_key).
Qed.

Section SortFilter.
Context {E : Engine}.

(** X2.  Filtering and sorting commute: sorting the filtered records, as
    the component does, gives the same list as filtering the sorted
    records. *)
Theorem sort_after_filter_is_filter_after_sort
  (records : list MeetingRecord) (pf sf dateFrom dateTo q : list N) :
  sortedRecords (filteredRecords records pf sf dateFrom dateTo q) =
  filteredRecords (sortedRecords records) pf sf dateFrom dateTo q.
Proof.
  unfold filteredRecords, sortedRecords. apply Array_sort_filter.
Qed.

End SortFilter.

(** X3.  The order inside a group is the order of the whole sorted list:
    a group is what remains of the sorted records when only those of its
    key are kept. *)
Theorem group_is_slice_of_sorted (records : list MeetingRecord) k g :
  Map_get (groupByProject records) k = Some g ->
  g = grp k (sortedRecords records).
Proof.
  rewrite groupByProject_get. unfold grp, sortedRecords.
  rewrite <- Array_sort_filter.
  destruct (List.filter _ records); [discriminate|]. intros [= <-]. reflexivity.
Qed.

Lemma Map_set_concat (m : list (value * list MeetingRecord)) k arr r :
  Map_get m k = Some arr ->
  Permutation (concat (List.map snd (Map_set m k (arr ++ [r]))))
    (concat (List.map snd m) ++ [r]).
Proof.
  induction m as [|[k' v'] m IH]; simpl; [discriminate|].
  destruct (strict_eqb k' k); simpl.
  - intros [= ->]. rewrite <- !app_assoc.
    apply Permutation_app_head, Permutation_app_comm.
  - intros Hg. rewrite (IH Hg), app_assoc. reflexivity.
Qed.

Lemma group_step_concat (m : list (value * list MeetingRecord)) r :
  Permutation (concat (List.map snd (group_step m r)))
    (concat (List.map snd m) ++ [r]).
Proof.
  unfold group_step. destruct (Map_has m (group_key r)) eqn:Hh; simpl.
  - unfold Map_has in Hh.
    destruct (Map_get m (group_key r)) as [arr|] eqn:Hg; [|discriminate].
    apply Map_set_concat, Hg.
  - apply Map_has_get in Hh. rewrite Map_get_set_eq.
    rewrite (Map_set_new m _ [] Hh), (Map_set_last m _ [] _ Hh).
    rewrite map_app, concat_app. simpl. rewrite ?app_nil_r. reflexivity.
Qed.

Lemma group_fold_concat (rs : list MeetingRecord) m :
  Permutation (concat (List.map snd (List.fold_left group_step rs m)))
    (concat (List.map snd m) ++ rs).
Proof.
  revert m. induction rs as [|r rs IH]; intros m; simpl.
  - rewrite app_nil_r. reflexivity.
  - rewrite IH, group_step_concat, <- app_assoc. reflexivity.
Qed.

Lemma sorted_groups_concat (m : list (value * list MeetingRecord)) :
  Permutation
    (concat (List.map snd
       (List.map (fun '(k, arr) => (k, Array_sort by_date_desc arr)) m)))
    (concat (List.map snd m)).
Proof.
  induction m as [|[k arr] m IH]; simpl; [reflexivity|].
  rewrite IH, Array_sort_perm. reflexivity.
Qed.

(** X4.  [groupByProject] is a partition of its input: the groups taken
    together hold every record exactly once, no group is empty, no key
    occurs twice, and a key has a group exactly when some record has that
    key. *)
Theorem groupByProject_partitions (records : list MeetingRecord) :
  Permutation (concat (List.map snd (groupByProject records))) records /\
  Forall (fun kg => kg.2 <> []) (groupByProject records) /\
  List.NoDup (List.map fst (groupByProject records)) /\
  (forall k, In k (List.map fst (groupByProject records)) <->
             exists r, In r records /\ group_key r = k).
Proof.
  split; [|split; [|split]].
  - unfold groupByProject. rewrite sorted_groups_concat, group_fold_concat.
    reflexivity.
  - apply List.Forall_forall. intros [k g] Hin Hg. simpl in Hg. subst g.
    pose proof (groupByProject_keys_NoDup records) as Hnd.
    assert (Map_get (groupByProject records) k = Some []) as Hget.
    { clear -Hin Hnd. induction (groupByProject records) as [|[k' v'] m IH];
        simpl in *; [contradiction|].
      apply List.NoDup_cons_iff in Hnd as [Hnin Hnd].
      unfold strict_eqb. case_bool_decide as Hk.
      - subst k'. destruct Hin as [[= ->]|Hin]; [reflexivity|].
        exfalso. apply Hnin. apply in_map_iff. exists (k, []). split; auto.
      - destruct Hin as [[= -> ->]|Hin]; [congruence|]. apply IH; assumption. }
    rewrite groupByProject_get in Hget.
    destruct (grp k records) as [|r g0] eqn:Hgrp; [discriminate|].
    pose proof (Array_sort_perm by_date_desc (r :: g0)) as Hp.
    assert (Array_sort by_date_desc (r :: g0) = []) as Hnil by congruence.
    rewrite Hnil in Hp. exact (Permutation_nil_cons Hp).
  - apply groupByProject_keys_NoDup.
  - intros k. split.
    + intros Hin.
      destruct (Map_get (groupByProject records) k) as [g|] eqn:Hg.
      * rewrite groupByProject_get in Hg.
        destruct (grp k records) as [|r g0] eqn:Hgrp; [discriminate|].
        assert (In r (grp k records)) as Hr by (rewrite Hgrp; left; reflexivity).
        apply filter_In in Hr as [Hr Hk]. exists r. split; [exact Hr|].
        apply bool_decide_eq_true_1 in Hk. exact Hk.
      * exfalso. eapply Map_get_None_keys; eassumption.
    + intros (r & Hr & Hk).
      destruct (Map_get (groupByProject records) k) as [g|] eqn:Hg.
      * apply Map_get_In in Hg. apply in_map_iff. exists (k, g). split; auto.
      * rewrite groupByProject_get in Hg.
        assert (In r (grp k records)) as Hin.
        { apply filter_In. split; [exact Hr|].
          apply bool_decide_eq_true_2. exact Hk. }
        destruct (grp k records); [destruct Hin | discriminate].
Qed.

(** ** The filter, applied again and with the default selectors *)

Lemma filter_twice {A} (p q : A -> bool) l :
  List.filter p (List.filter q l) = List.filter (fun x => q x && p x) l.
Proof.
  induction l as [|a l IH]; simpl; [reflexivity|].
  destruct (q a); simpl; [destruct (p a)|]; rewrite IH; reflexivity.
Qed.

Lemma filter_sublist {A} (p : A -> bool) l : sublist (List.filter p l) l.
Proof.
  induction l as [|a l IH]; simpl; [constructor|].
  destruct (p a); [apply sublist_skip | apply sublist_cons]; exact IH.
Qed.

Section FilterAgain.
Context {E : Engine}.

Lemma keep_default (r : MeetingRecord) :
  keep (str "ALL") (str "ALL") (bound []) (bound []) (toLowerCase (trim [])) r
  = true.
Proof.
  rewrite keep_conjunction.
  change (trim []) with (@nil N). rewrite toLowerCase_empty. reflexivity.
Qed.

(** X5.  The filter only removes: its result is a sublist of the
    records, in their order.  Applying it a second time with the same
    selectors changes nothing, two passes with different selectors can be
    swapped, and a pass on the project followed by a pass on everything
    else is the single pass with all selectors. *)
Theorem filter_passes_compose
  (records : list MeetingRecord) (pf sf dateFrom dateTo q : list N) :
  sublist (filteredRecords records pf sf dateFrom dateTo q) records /\
  filteredRecords (filteredRecords records pf sf dateFrom dateTo q)
    pf sf dateFrom dateTo q
  = filteredRecords records pf sf dateFrom dateTo q /\
  (forall pf' sf' dateFrom' dateTo' q',
      filteredRecords (filteredRecords records pf sf dateFrom dateTo q)
        pf' sf' dateFrom' dateTo' q'
      = filteredRecords (filteredRecords records pf' sf' dateFrom' dateTo' q')
          pf sf dateFrom dateTo q) /\
  filteredRecords (filteredRecords records pf (str "ALL") [] [] [])
    (str "ALL") sf dateFrom dateTo q
  = filteredRecords records pf sf dateFrom dateTo q.
Proof.
  unfold filteredRecords. split; [apply filter_sublist|].
  split; [|split].
  - rewrite filter_twice. apply filter_ext. intros r. apply andb_diag.
  - intros pf' sf' dateFrom' dateTo' q'. apply filter_filter_comm.
  - rewrite filter_twice. apply filter_ext. intros r.
    rewrite !keep_conjunction.
    change (trim []) with (@nil N). rewrite toLowerCase_empty.
    change (project_ok (str "ALL") r) with true.
    change (student_ok (str "ALL") r) with true.
    change (from_ok (bound []) r) with true.
    change (to_ok (bound []) r) with true.
    change (query_ok [] r) with true.
    destruct (project_ok pf r), (student_ok sf r), (from_ok (bound dateFrom) r),
      (to_ok (bound dateTo) r); reflexivity.
Qed.

(** X6.  With the selectors that [resetFilters] installs, which are also
    the initial ones, nothing is filtered out: the filtered records are
    the normalised rows, one per loaded row and in their order, and the
    rendered list is these records sorted.  [resetFilters] touches
    neither the rows nor the error, the loading flag or the URL. *)
Theorem resetFilters_shows_everything (st : App.State) :
  App.filtered (App.resetFilters st)
  = List.map normalizeRecord (App.rawRows st) /\
  length (App.sorted (App.resetFilters st)) = length (App.rawRows st) /\
  Permutation (App.sorted (App.resetFilters st))
    (List.map normalizeRecord (App.rawRows st)) /\
  App.rawRows (App.resetFilters st) = App.rawRows st /\
  App.error (App.resetFilters st) = App.error st /\
  App.loading (App.resetFilters st) = App.loading st /\
  App.csvUrl (App.resetFilters st) = App.csvUrl st.
Proof.
  assert (App.filtered (App.resetFilters st)
          = List.map normalizeRecord (App.rawRows st)) as Hf.
  { unfold App.filtered, App.records, filteredRecords. simpl.
    induction (List.map normalizeRecord (App.rawRows st)) as [|r l IH];
      simpl; [reflexivity|].
    rewrite keep_default. f_equal. exact IH. }
  split; [exact Hf|].
  assert (Permutation (App.sorted (App.resetFilters st))
            (List.map normalizeRecord (App.rawRows st))) as Hp.
  { unfold App.sorted, sortedRecords. rewrite Hf. apply Array_sort_perm. }
  split; [rewrite (Permutation_length Hp); apply length_map|].
  split; [exact Hp|]. repeat split.
Qed.

End FilterAgain.

(** ** The option lists of the selectors *)

Lemma str_ltb_irrefl (s : list N) : str_ltb s s = false.
Proof.
  induction s as [|a s IH]; simpl; [reflexivity|].
  rewrite N.ltb_irrefl, N.eqb_refl, IH. reflexivity.
Qed.

Lemma str_ltb_trans (s t u : list N) :
  str_ltb s t = true -> str_ltb t u = true -> str_ltb s u = true.
Proof.
  revert t u. induction s as [|a s IH]; intros [|b t] [|c u]; simpl;
    try discriminate; try reflexivity.
  rewrite !orb_true_iff, !andb_true_iff, !N.ltb_lt, !N.eqb_eq.
  intros [Hab | [-> Hst]] [Hbc | [-> Htu]].
  - left. lia.
  - left. exact Hab.
  - left. exact Hbc.
  - right. split; [reflexivity | eapply IH; eassumption].
Qed.

Lemma str_ltb_total (s t : list N) :
  str_ltb s t = false -> str_ltb t s = false -> s = t.
Proof.
  revert t. induction s as [|a s IH]; intros [|b t]; simpl;
    try discriminate; try reflexivity.
  rewrite !orb_false_iff, !andb_false_iff, !N.ltb_ge, !N.eqb_neq.
  intros [Hab [Hne | Hst]] [Hba [Hne' | Hts]]; try lia.
  assert (a = b) as -> by lia. f_equal. apply IH; assumption.
Qed.

Lemma str_ltb_asym (s t : list N) :
  str_ltb s t = true -> str_ltb t s = false.
Proof.
  intros Hst. destruct (str_ltb t s) eqn:Hts; [|reflexivity].
  rewrite <- (str_ltb_irrefl s). symmetry. eapply str_ltb_trans; eassumption.
Qed.

Lemma default_compare_le (x y : value) :
  default_compare x y <= 0 <-> str_ltb (ToString y) (ToString x) = false.
Proof.
  unfold default_compare.
  destruct (str_ltb (ToString x) (ToString y)) eqn:Hxy.
  - rewrite (str_ltb_asym _ _ Hxy). split; [reflexivity | lia].
  - destruct (str_ltb (ToString y) (ToString x)); split;
      try reflexivity; try lia; discriminate.
Qed.

Section AnyComparator.
Context {A : Type} (cmp : A -> A -> Z).
Hypothesis cmp_total : forall a b, cmp a b <= 0 \/ cmp b a <= 0.
Hypothesis cmp_trans : forall a b c, cmp a b <= 0 -> cmp b c <= 0 -> cmp a c <= 0.

Lemma sort_insert_ordered (x : A) (l : list A) :
  StronglySorted (fun a b => cmp a b <= 0) l ->
  StronglySorted (fun a b => cmp a b <= 0) (sort_insert cmp x l).
Proof.
  induction 1 as [|y l Hs IH Hy]; simpl.
  - repeat constructor.
  - destruct (Z.leb_spec (cmp x y) 0) as [Hle | Hgt].
    + constructor; [constructor; assumption|].
      constructor; [exact Hle|].
      eapply Forall_impl; [exact Hy|]. simpl. intros z Hz.
      eapply cmp_trans; eassumption.
    + constructor; [exact IH|].
      eapply Permutation_Forall; [symmetry; apply sort_insert_perm|].
      constructor; [|exact Hy].
      destruct (cmp_total x y); [lia | assumption].
Qed.

Lemma Array_sort_ordered (l : list A) :
  StronglySorted (fun a b => cmp a b <= 0) (Array_sort cmp l).
Proof.
  induction l as [|x l IH]; simpl; [constructor|].
  apply sort_insert_ordered, IH.
Qed.

End AnyComparator.

Lemma default_compare_total (a b : value) :
  default_compare a b <= 0 \/ default_compare b a <= 0.
Proof.
  rewrite !default_compare_le.
  destruct (str_ltb (ToString b) (ToString a)) eqn:Hba; [|left; reflexivity].
  right. apply str_ltb_asym, Hba.
Qed.

Lemma default_compare_trans (a b c : value) :
  default_compare a b <= 0 -> default_compare b c <= 0 ->
  default_compare a c <= 0.
Proof.
  rewrite !default_compare_le. intros Hba Hcb.
  destruct (str_ltb (ToString c) (ToString a)) eqn:Hca; [|reflexivity].
  destruct (str_ltb (ToString a) (ToString b)) eqn:Hab.
  - rewrite <- Hcb. symmetry. eapply str_ltb_trans; eassumption.
  - rewrite (str_ltb_total _ _ Hab Hba) in Hca. congruence.
Qed.

Lemma existsb_strict_eqb (v : value) (s : list value) :
  existsb (strict_eqb v) s = true <-> In v s.
Proof.
  rewrite existsb_exists. split.
  - intros (x & Hx & Heq). apply bool_decide_eq_true_1 in Heq. congruence.
  - intros Hin. exists v. split; [exact Hin | apply bool_decide_eq_true_2; reflexivity].
Qed.

Lemma Set_add_In (s : list value) (v w : value) :
  In w (Set_add s v) <-> In w s \/ w = v.
Proof.
  unfold Set_add. destruct (existsb (strict_eqb v) s) eqn:Hex.
  - apply existsb_strict_eqb in Hex. split; [auto | intros [H | ->]; assumption].
  - rewrite in_app_iff. simpl. split; intros [H | H]; auto.
    + destruct H as [<- | []]. auto.
Qed.

Lemma Set_add_NoDup (s : list value) (v : value) :
  List.NoDup s -> List.NoDup (Set_add s v).
Proof.
  intros Hnd. unfold Set_add. destruct (existsb (strict_eqb v) s) eqn:Hex;
    [exact Hnd|].
  apply NoDup_ListNoDup, NoDup_app. apply NoDup_ListNoDup in Hnd.
  split; [exact Hnd|]. split; [|apply NoDup_singleton].
  intros x Hx Hx'. apply list_elem_of_singleton in Hx'. subst x.
  apply list_elem_of_In, existsb_strict_eqb in Hx. congruence.
Qed.

Lemma collect_In field (rs : list MeetingRecord) (s : list value) (v : value) :
  In v (collect field rs s) <->
  In v s \/ (truthy v = true /\ exists r, In r rs /\ field r = v).
Proof.
  unfold collect. revert s. induction rs as [|r rs IH]; intros s; simpl.
  - split; [auto | intros [H | (_ & r & [] & _)]; exact H].
  - rewrite IH. destruct (truthy (field r)) eqn:Ht.
    + rewrite Set_add_In. split.
      * intros [[H | ->] | (Hv & r' & Hr' & Hf)]; auto.
        -- right. split; [exact Ht|]. exists r. auto.
        -- right. split; [exact Hv|]. exists r'. auto.
      * intros [H | (Hv & r' & [<- | Hr'] & Hf)]; auto.
        right. split; [exact Hv|]. exists r'. auto.
    + split.
      * intros [H | (Hv & r' & Hr' & Hf)]; auto.
        right. split; [exact Hv|]. exists r'. auto.
      * intros [H | (Hv & r' & [<- | Hr'] & Hf)]; auto.
        -- subst v. congruence.
        -- right. split; [exact Hv|]. exists r'. auto.
Qed.

Lemma collect_NoDup field (rs : list MeetingRecord) (s : list value) :
  List.NoDup s -> List.NoDup (collect field rs s).
Proof.
  unfold collect. revert s. induction rs as [|r rs IH]; intros s Hnd; simpl;
    [exact Hnd|].
  apply IH. destruct (truthy (field r)); [apply Set_add_NoDup|]; exact Hnd.
Qed.

Lemma options_fold (rs : list MeetingRecord) (p s : list value) :
  List.fold_left options_step rs (p, s)
  = (collect project rs p, collect student rs s).
Proof.
  unfold collect. revert p s. induction rs as [|r rs IH]; intros p s; simpl;
    [reflexivity|].
  apply IH.
Qed.

(** A sorted list of distinct truthy values is strictly increasing. *)
Lemma sorted_distinct_strict (l : list value) :
  StronglySorted (fun a b => default_compare a b <= 0) l ->
  List.NoDup l -> Forall (fun v => truthy v = true) l ->
  StronglySorted (fun a b => str_lt (ToString a) (ToString b)) l.
Proof.
  induction 1 as [|a l Hs IH Ha]; intros Hnd Ht; [constructor|].
  apply List.NoDup_cons_iff in Hnd as [Hnin Hnd].
  inversion Ht as [|? ? Hta Htl]; subst.
  constructor; [apply IH; assumption|].
  rewrite List.Forall_forall in Ha, Htl. apply List.Forall_forall.
  intros b Hb. specialize (Ha b Hb). specialize (Htl b Hb).
  apply default_compare_le in Ha. unfold str_lt.
  destruct (str_ltb (ToString a) (ToString b)) eqn:Hab; [reflexivity|].
  exfalso. apply Hnin. pose proof (str_ltb_total _ _ Hab Ha) as Heq.
  destruct a as [| |sa], b as [| |sb]; try discriminate.
  simpl in Heq. subst sb. exact Hb.
Qed.

Lemma sorted_options field (rs : list MeetingRecord) :
  let l := Array_sort default_compare (collect field rs []) in
  StronglySorted (fun a b => str_lt (ToString a) (ToString b)) l /\
  forall v, In v l <-> truthy v = true /\ exists r, In r rs /\ field r = v.
Proof.
  intros l.
  assert (forall v, In v l <->
            truthy v = true /\ exists r, In r rs /\ field r = v) as Hin.
  { intros v. subst l. split.
    - intros Hv. eapply Permutation_in in Hv; [|apply Array_sort_perm].
      apply collect_In in Hv as [[] | Hv]. exact Hv.
    - intros Hv. eapply Permutation_in; [symmetry; apply Array_sort_perm|].
      apply collect_In. right. exact Hv. }
  split; [|exact Hin].
  apply sorted_distinct_strict.
  - apply Array_sort_ordered;
      [apply default_compare_total | apply default_compare_trans].
  - eapply Permutation_NoDup; [symmetry; apply Array_sort_perm|].
    apply collect_NoDup. constructor.
  - apply List.Forall_forall. intros v Hv. apply Hin in Hv. tauto.
Qed.

Lemma options_lists (records : list MeetingRecord) :
  (exists l,
      projects records = Str (str "ALL") :: l /\
      StronglySorted (fun a b => str_lt (ToString a) (ToString b)) l /\
      forall v, In v l <->
                truthy v = true /\ exists r, In r records /\ project r = v) /\
  (exists l,
      students records = Str (str "ALL") :: l /\
      StronglySorted (fun a b => str_lt (ToString a) (ToString b)) l /\
      forall v, In v l <->
                truthy v = true /\ exists r, In r records /\ student r = v).
Proof.
  unfold projects, students, options. rewrite options_fold. simpl. split.
  - eexists. split; [reflexivity|]. apply (sorted_options project).
  - eexists. split; [reflexivity|]. apply (sorted_options student).
Qed.

(** X7.  Each selector lists "ALL" first and then the non-empty values
    of its field, project or student, that occur in the records: every
    such value once, none other, in strictly increasing order of their
    code units. *)
Theorem selector_options (records : list MeetingRecord) :
  (exists l,
      projects records = Str (str "ALL") :: l /\
      StronglySorted (fun a b => str_lt (ToString a) (ToString b)) l /\
      forall v, In v l <->
                truthy v = true /\ exists r, In r records /\ project r = v) /\
  (exists l,
      students records = Str (str "ALL") :: l /\
      StronglySorted (fun a b => str_lt (ToString a) (ToString b)) l /\
      forall v, In v l <->
                truthy v = true /\ exists r, In r records /\ student r = v).
Proof. exact (options_lists records). Qed.

Section OptionsAndFilter.
Context {E : Engine}.

(** X8.  Every project offered by the selector selects something: with
    the other selectors at their defaults, choosing an offered project
    keeps at least one record, and, unless the project is itself called
    "ALL", keeps exactly the records of that project. *)
Theorem offered_project_selects_records
  (records : list MeetingRecord) (p : list N) :
  In (Str p) (tail (projects records)) ->
  (exists r, In r (filteredRecords records p (str "ALL") [] [] []) /\
             project r = Str p) /\
  (p <> str "ALL" ->
   forall r, In r (filteredRecords records p (str "ALL") [] [] []) <->
             In r records /\ project r = Str p).
Proof.
  intros Hin.
  destruct (proj1 (options_lists records)) as (l & Hl & _ & Hmem).
  rewrite Hl in Hin. simpl in Hin. apply Hmem in Hin as (_ & r & Hr & Hp).
  assert (forall r, In r (filteredRecords records p (str "ALL") [] [] []) <->
                    In r records /\ (p = str "ALL" \/ project r = Str p)) as Hf.
  { intros r'. unfold filteredRecords. rewrite filter_In, keep_conjunction.
    change (trim []) with (@nil N). rewrite toLowerCase_empty.
    change (student_ok (str "ALL") r') with true.
    change (from_ok (bound []) r') with true.
    change (to_ok (bound []) r') with true.
    change (query_ok [] r') with true.
    rewrite !andb_true_r, project_ok_spec. reflexivity. }
  split.
  - exists r. split; [|exact Hp]. apply Hf. auto.
  - intros Hne r'. rewrite Hf. tauto.
Qed.

End OptionsAndFilter.

(** ** More on list fields and column picking *)

Lemma weave_app_head (pad p : list N) ps ds :
  weave ((pad ++ p) :: ps) ds = pad ++ weave (p :: ps) ds.
Proof.
  destruct ds as [|d ds]; simpl; [reflexivity|].
  destruct ps; rewrite <- app_assoc; reflexivity.
Qed.

Lemma join_weave (d : N) (pad x : list N) (rest : list (list N)) :
  join (d :: pad) (x :: rest) =
  weave (x :: List.map (app pad) rest) (List.repeat d (length rest)).
Proof.
  revert x. induction rest as [|y rest IH]; intros x; [reflexivity|].
  change (join (d :: pad) (x :: y :: rest))
    with (x ++ (d :: pad) ++ join (d :: pad) (y :: rest)).
  rewrite IH.
  change (weave (x :: List.map (app pad) (y :: rest))
            (List.repeat d (length (y :: rest))))
    with (x ++ d :: weave ((pad ++ y) :: List.map (app pad) rest)
                      (List.repeat d (length rest))).
  rewrite weave_app_head. reflexivity.
Qed.

Lemma trim_padded (pad y : list N) :
  all_ws pad -> y <> [] -> no_ws_at_ends y -> trim (pad ++ y) = y.
Proof.
  intros Hpad Hy Hends. unfold trim.
  assert (trimStart (pad ++ y) = y) as ->.
  { induction Hpad as [|c pad Hc _ IH]; simpl.
    - apply trimStart_fixed, Hends.
    - rewrite Hc. exact IH. }
  change (trimEnd y) with (trimEnd y).
  rewrite <- (trimStart_fixed y (proj1 Hends)) at 1. apply trim_fixed, Hends.
Qed.

(** X9.  Splitting undoes joining: items that are non-empty, free of
    semicolons and newlines and without white space at their ends, joined
    with a semicolon or a newline followed by any blank padding, are
    recovered exactly, in order. *)
Theorem splitList_recovers_joined_items
  (d : N) (pad : list N) (items : list (list N)) :
  is_delim d = true ->
  all_ws pad -> Forall (fun c => is_delim c = false) pad ->
  Forall (fun x => x <> [] /\ no_ws_at_ends x /\
                   Forall (fun c => is_delim c = false) x) items ->
  splitList (Str (join (d :: pad) items)) = items.
Proof.
  intros Hd Hpad Hpadnd Hitems. rewrite splitList_pipeline.
  destruct items as [|x rest]; [reflexivity|].
  inversion Hitems as [|? ? (Hx & Hxe & Hxd) Hrest]; subst.
  rewrite join_weave, split_determined.
  - simpl. rewrite (trim_fixed x Hxe).
    destruct x as [|c x]; [congruence|]. simpl. f_equal.
    clear -Hrest Hpad. induction Hrest as [|y rest (Hy & Hye & _) _ IH];
      simpl; [reflexivity|].
    rewrite (trim_padded pad y Hpad Hy Hye).
    destruct y as [|c' y]; [congruence|]. simpl. f_equal. exact IH.
  - simpl. rewrite length_map, repeat_length. reflexivity.
  - apply List.Forall_forall. intros c Hc. apply repeat_spec in Hc. congruence.
  - constructor; [exact Hxd|].
    apply List.Forall_forall. intros p Hp. apply in_map_iff in Hp as (y & <- & Hy).
    rewrite List.Forall_forall in Hrest. destruct (Hrest y Hy) as (_ & _ & Hyd).
    apply Forall_app. split; assumption.
Qed.

Lemma occurs_in_trans (a b c : list N) :
  occurs_in a b -> occurs_in b c -> occurs_in a c.
Proof.
  intros (p1 & q1 & ->) (p2 & q2 & ->). exists (p2 ++ p1), (q1 ++ q2).
  rewrite <- !app_assoc. reflexivity.
Qed.

Lemma split_piece_occurs d (s p : list N) :
  In p (split d s) -> occurs_in p s.
Proof.
  revert p. induction s as [|c s IH]; intros p; simpl.
  - intros [<- | []]. exists [], []. reflexivity.
  - destruct (d c).
    + intros [<- | Hp]; [exists [], (c :: s); reflexivity|].
      destruct (IH p Hp) as (pre & post & ->). exists (c :: pre), post. reflexivity.
    + destruct (split d s) as [|p0 ps] eqn:Hs.
      * intros [<- | []]. exists [], s. simpl. rewrite ?app_nil_r; reflexivity.
      * intros [<- | Hp].
        -- destruct (split_weave d s) as (ds & _ & _ & _ & Hw).
           rewrite Hs in Hw. destruct ds as [|d1 ds]; simpl in Hw.
           ++ exists [], []. simpl. rewrite app_nil_r. congruence.
           ++ exists [], (d1 :: weave ps ds). simpl. rewrite <- Hw.
              reflexivity.
        -- destruct (IH p (or_intror Hp)) as (pre & post & ->).
           exists (c :: pre), post. reflexivity.
Qed.

Lemma split_length d (s : list N) :
  length (split d s) = S (length (List.filter d s)).
Proof.
  induction s as [|c s IH]; simpl; [reflexivity|].
  destruct (d c); simpl; [rewrite IH; reflexivity|].
  destruct (split d s); simpl in *; [discriminate | exact IH].
Qed.

Lemma filter_length_le {A} (p : A -> bool) l :
  (length (List.filter p l) <= length l)%nat.
Proof.
  induction l as [|a l IH]; simpl; [lia|]. destruct (p a); simpl; lia.
Qed.

Lemma trim_occurs (p : list N) : occurs_in (trim p) p.
Proof.
  destruct (trim_split p) as (l & r & Hp & _). exists l, r. exact Hp.
Qed.

Lemma trim_no_delim d (p : list N) :
  Forall (fun c => d c = false) p -> Forall (fun c => d c = false) (trim p).
Proof.
  intros Hp. destruct (trim_split p) as (l & r & Heq & _).
  rewrite Heq in Hp. apply Forall_app in Hp as [_ Hp].
  apply Forall_app in Hp as [Hp _]. exact Hp.
Qed.

(** X10.  [splitList] invents nothing: every item it returns is a
    stretch of the input text that holds no semicolon and no newline, and
    there is at most one item more than there are semicolons and newlines
    in the text. *)
Theorem splitList_items_come_from_text (text : list N) :
  (forall x, In x (splitList (Str text)) ->
             occurs_in x text /\ Forall (fun c => c <> 59 /\ c <> 10)%N x) /\
  (length (splitList (Str text)) <= S (length (List.filter is_delim text)))%nat.
Proof.
  rewrite splitList_pipeline. split.
  - intros x Hx. apply filter_In in Hx as [Hx _].
    apply in_map_iff in Hx as (p & <- & Hp). split.
    + eapply occurs_in_trans; [apply trim_occurs|].
      apply (split_piece_occurs is_delim), Hp.
    + destruct (split_weave is_delim text) as (ds & _ & _ & Hnd & _).
      rewrite List.Forall_forall in Hnd.
      eapply Forall_impl; [apply trim_no_delim, (Hnd p Hp)|].
      intros c. apply is_delim_false.
  - etransitivity; [apply filter_length_le|].
    rewrite length_map, split_length. reflexivity.
Qed.

Lemma own_In (raw : list (list N * list N)) k v :
  own raw k = Some v -> In (k, v) raw.
Proof.
  induction raw as [|[k' v'] raw IH]; simpl; [discriminate|].
  unfold str_eqb. case_bool_decide as Hk.
  - intros [= ->]. left. congruence.
  - intros Hv. right. exact (IH Hv).
Qed.

Lemma own_None_iff (raw : list (list N * list N)) k :
  own raw k = None <-> ~ In k (keys raw).
Proof.
  unfold keys. induction raw as [|[k' v'] raw IH]; simpl; [tauto|].
  unfold str_eqb. case_bool_decide as Hk.
  - split; [discriminate | intros Hn; exfalso; apply Hn; left; exact Hk].
  - rewrite IH. tauto.
Qed.

Lemma scan_found (raw : list (list N * list N)) (re : regex) k :
  List.find (regex_test re) (keys raw) = Some k ->
  exists v, get raw (Str k) = Str v /\ In (k, v) raw /\ regex_test re k = true.
Proof.
  intros Hfind. apply find_some in Hfind as [Hk Hre]. unfold get. simpl.
  destruct (own raw k) as [v|] eqn:Hv.
  - exists v. split; [reflexivity|]. split; [apply own_In, Hv | exact Hre].
  - apply own_None_iff in Hv. contradiction.
Qed.

Lemma scan_nothing (raw : list (list N * list N)) (re : regex) :
  List.find (regex_test re) (keys raw) = None <->
  Forall (fun kv => regex_test re kv.1 = false) raw.
Proof.
  split; [|apply no_match]. intros Hfind.
  apply List.Forall_forall. intros [k v] Hin. simpl.
  apply (find_none _ _ Hfind). apply in_map_iff. exists (k, v). auto.
Qed.

(** X11.  [pickColumn] returns a cell of the row or [undefined], never
    anything else: a string it returns stands in the row under the
    preferred header or under a header the pattern matches; it returns
    [undefined] exactly when the row has no cell under a non-empty
    preferred header and no header the pattern matches.  The preferred
    header, when the row has it, is used whatever the other headers
    are. *)
Theorem pickColumn_returns_a_cell
  (raw : list (list N * list N)) (preferredName : value) (re : regex) :
  pickColumn raw preferredName re <> Null /\
  (forall v, pickColumn raw preferredName re = Str v ->
             exists k, In (k, v) raw /\
                       (truthy preferredName = true /\ k = ToString preferredName
                        \/ regex_test re k = true)) /\
  (pickColumn raw preferredName re = Undefined <->
   (truthy preferredName = false \/ own raw (ToString preferredName) = None) /\
   Forall (fun kv => regex_test re kv.1 = false) raw) /\
  (forall v, truthy preferredName = true ->
             own raw (ToString preferredName) = Some v ->
             pickColumn raw preferredName re = Str v).
Proof.
  unfold pickColumn, hasOwnProperty.
  destruct (truthy preferredName) eqn:Ht; cbn [andb].
  - destruct (own raw (ToString preferredName)) as [v0|] eqn:Hown.
    + unfold get. rewrite Hown.
      split; [discriminate|]. split; [|split].
      * intros v [= <-]. exists (ToString preferredName).
        split; [apply own_In, Hown | left; auto].
      * split; [discriminate | intros [[H | H] _]; discriminate].
      * intros v _ [= <-]. reflexivity.
    + destruct (List.find (regex_test re) (keys raw)) as [k|] eqn:Hfind.
      * destruct (scan_found raw re k Hfind) as (v & -> & Hin & Hre).
        split; [discriminate|]. split; [|split].
        -- intros v' [= <-]. exists k. auto.
        -- split; [discriminate|]. intros [_ Hall].
           apply scan_nothing in Hall. congruence.
        -- intros v' _ [=].
      * split; [discriminate|]. split; [|split].
        -- intros v [=].
        -- split; [|reflexivity]. intros _. split; [auto|].
           apply scan_nothing, Hfind.
        -- intros v' _ [=].
  - destruct (List.find (regex_test re) (keys raw)) as [k|] eqn:Hfind.
    + destruct (scan_found raw re k Hfind) as (v & -> & Hin & Hre).
      split; [discriminate|]. split; [|split].
      * intros v' [= <-]. exists k. auto.
      * split; [discriminate|]. intros [_ Hall].
        apply scan_nothing in Hall. congruence.
      * intros v' [=].
    + split; [discriminate|]. split; [|split].
      * intros v [=].
      * split; [|reflexivity]. intros _. split; [auto|].
        apply scan_nothing, Hfind.
      * intros v' [=].
Qed.

(** ** More on the normaliser *)

Section NormaliserAgain.
Context {E : Engine}.

Lemma normalizeRecord_date (raw : list (list N * list N)) :
  let dateRaw := js_or (get raw (Str H_DATE)) (get raw (Str H_TIMESTAMP)) in
  date (normalizeRecord raw) = parseDateLoose dateRaw /\
  date_label (normalizeRecord raw) =
  match parseDateLoose dateRaw with
  | Some _ => toYMD (parseDateLoose dateRaw)
  | None => ToString (js_or dateRaw (Str []))
  end.
Proof. split; reflexivity. Qed.

(** X12.  The timestamp column stands in for the date column only when
    the date cell is absent or empty.  A date cell with text decides the
    date alone: if the text does not parse, the record has no date and is
    labelled with that text, whatever the timestamp cell holds.  With
    neither cell filled the record has no date and an empty label. *)
Theorem date_cell_shadows_timestamp (raw : list (list N * list N)) :
  (forall c s,
      own raw H_DATE = Some (c :: s) ->
      date (normalizeRecord raw) = Date_parse (c :: s) /\
      (Date_parse (c :: s) = None ->
       date_label (normalizeRecord raw) = c :: s)) /\
  (own raw H_DATE = None \/ own raw H_DATE = Some [] ->
   forall c s,
     own raw H_TIMESTAMP = Some (c :: s) ->
     date (normalizeRecord raw) = Date_parse (c :: s) /\
     (Date_parse (c :: s) = None ->
      date_label (normalizeRecord raw) = c :: s)) /\
  (own raw H_DATE = None \/ own raw H_DATE = Some [] ->
   own raw H_TIMESTAMP = None \/ own raw H_TIMESTAMP = Some [] ->
   date (normalizeRecord raw) = None /\
   date_label (normalizeRecord raw) = []).
Proof.
  destruct (normalizeRecord_date raw) as [Hd Hl]. cbv zeta in Hd, Hl.
  rewrite Hd, Hl. rewrite !get_own. split; [|split].
  - intros c s ->. simpl. unfold parseDateLoose. simpl. split; [reflexivity|].
    intros ->. reflexivity.
  - intros Hdate c s ->.
    assert (js_or match own raw H_DATE with
                  | Some v => Str v
                  | None => Undefined
                  end (Str (c :: s)) = Str (c :: s)) as ->
      by (destruct Hdate as [-> | ->]; reflexivity).
    unfold parseDateLoose. simpl. split; [reflexivity|]. intros ->. reflexivity.
  - intros Hdate Hts.
    destruct Hdate as [-> | ->], Hts as [-> | ->]; split; reflexivity.
Qed.

Lemma group_key_normalized (raw : list (list N * list N)) :
  group_key (normalizeRecord raw) = Str (project_text raw).
Proof.
  unfold group_key, project_text.
  change (project (normalizeRecord raw))
    with (js_or (get raw (Str H_PROJECT)) (Str UNSPECIFIED)).
  rewrite get_own. destruct (own raw H_PROJECT) as [[|c s]|]; reflexivity.
Qed.

(** X13.  Two rows are grouped together exactly when they have the same
    project text, the text of a missing or empty project cell being
    "Unspecified Project".  Cells are compared as they are, untrimmed; a
    row whose cell reads "Unspecified Project" joins the rows that have
    no project. *)
Theorem rows_share_group_iff_same_project_text
  (rows : list (list (list N * list N))) (raw1 raw2 : list (list N * list N)) :
  In raw1 rows -> In raw2 rows ->
  ((exists k g,
       Map_get (groupByProject (List.map normalizeRecord rows)) k = Some g /\
       In (normalizeRecord raw1) g /\ In (normalizeRecord raw2) g)
   <-> project_text raw1 = project_text raw2).
Proof.
  intros H1 H2. set (recs := List.map normalizeRecord rows).
  assert (forall k g r, Map_get (groupByProject recs) k = Some g ->
                        (In r g <-> In r recs /\ group_key r = k)) as Hgrp.
  { intros k g r Hg. rewrite groupByProject_get in Hg.
    destruct (grp k recs) as [|r0 g0] eqn:Hk; [discriminate|].
    injection Hg as <-.
    assert (In r (Array_sort by_date_desc (r0 :: g0)) <-> In r (r0 :: g0)) as ->.
    { split; apply Permutation_in;
        [apply Array_sort_perm | symmetry; apply Array_sort_perm]. }
    rewrite <- Hk. unfold grp. rewrite filter_In.
    unfold strict_eqb. rewrite bool_decide_eq_true. reflexivity. }
  split.
  - intros (k & g & Hg & Hr1 & Hr2).
    apply (Hgrp k g _ Hg) in Hr1 as [_ Hk1].
    apply (Hgrp k g _ Hg) in Hr2 as [_ Hk2].
    rewrite group_key_normalized in Hk1, Hk2. congruence.
  - intros Heq. set (k := Str (project_text raw1)).
    assert (In (normalizeRecord raw1) (grp k recs)) as Hin.
    { apply filter_In. split; [apply in_map, H1|].
      rewrite group_key_normalized. apply bool_decide_eq_true_2. reflexivity. }
    destruct (Map_get (groupByProject recs) k) as [g|] eqn:Hg.
    + exists k, g. split; [exact Hg|]. split; apply (Hgrp k g _ Hg).
      * split; [apply in_map, H1 | apply group_key_normalized].
      * split; [apply in_map, H2|]. rewrite group_key_normalized, <- Heq.
        reflexivity.
    + rewrite groupByProject_get in Hg.
      destruct (grp k recs); [destruct Hin | discriminate].
Qed.

End NormaliserAgain.

(** ** Decimal numerals, labels and keys *)

Lemma digit_val_digit (n : N) :
  digit_val (48 + n mod 10) = Some (Z.of_N (n mod 10)).
Proof.
  unfold digit_val. pose proof (N.mod_upper_bound n 10 ltac:(discriminate)) as Hm.
  set (d := (n mod 10)%N) in *. clearbody d.
  assert (((48 <=? 48 + d) && (48 + d <=? 57))%N = true) as ->.
  { apply andb_true_iff. split; apply N.leb_le; lia. }
  f_equal. lia.
Qed.

Lemma number_of_digits (fuel : nat) (n : N) (acc : list N) :
  (n < 10 ^ N.of_nat fuel)%N ->
  number_of (digits fuel n acc) 0 = number_of acc (Z.of_N n).
Proof.
  revert n acc. induction fuel as [|fuel IH]; intros n acc Hn.
  - simpl in Hn. assert (n = 0%N) as -> by lia. reflexivity.
  - cbn [digits]. destruct (N.ltb_spec n 10) as [Hlt | Hge].
    + cbn [number_of]. rewrite digit_val_digit.
      rewrite N.mod_small by exact Hlt. f_equal.
    + rewrite IH.
      * cbn [number_of]. rewrite digit_val_digit. f_equal.
        rewrite (N.div_mod n 10) at 3 by discriminate. lia.
      * rewrite Nat2N.inj_succ, N.pow_succ_r' in Hn.
        apply N.Div0.div_lt_upper_bound. exact Hn.
Qed.

Lemma fuel_suffices (a : N) : (a < 10 ^ N.of_nat (S (N.to_nat (N.log2 a))))%N.
Proof.
  rewrite Nat2N.inj_succ, N2Nat.id.
  destruct (N.eq_dec a 0%N) as [-> | Hne]; [reflexivity|].
  assert (0 < a)%N as Hpos by lia.
  pose proof (N.log2_spec a Hpos) as [_ Hlt].
  eapply N.lt_le_trans; [exact Hlt|].
  apply N.pow_le_mono_l. lia.
Qed.

(** Reading back the numeral of a non-negative integer gives the
    integer. *)
Lemma number_of_Number_toString (n : Z) :
  0 <= n -> number_of (Number_toString n) 0 = Some n.
Proof.
  intros Hn. unfold Number_toString.
  destruct (Z.ltb_spec n 0) as [Hlt | _]; [lia|].
  rewrite number_of_digits by apply fuel_suffices.
  simpl. f_equal. lia.
Qed.

Lemma digits_are_digits (fuel : nat) (n : N) (acc : list N) :
  Forall is_digit acc -> Forall is_digit (digits fuel n acc).
Proof.
  revert n acc. induction fuel as [|fuel IH]; intros n acc Hacc; [exact Hacc|].
  cbn [digits].
  assert (Forall is_digit ((48 + n mod 10)%N :: acc)) as Hacc'.
  { constructor; [|exact Hacc]. unfold is_digit.
    pose proof (N.mod_upper_bound n 10 ltac:(discriminate)) as Hm.
    set (d := (n mod 10)%N) in *. clearbody d. lia. }
  destruct (n <? 10)%N; [exact Hacc' | apply IH, Hacc'].
Qed.

Lemma Number_toString_digits (n : Z) :
  0 <= n -> Forall is_digit (Number_toString n).
Proof.
  intros Hn. unfold Number_toString.
  destruct (Z.ltb_spec n 0) as [Hlt | _]; [lia|].
  apply digits_are_digits. constructor.
Qed.

Lemma split_at_last {A} (x : A) (l1 r1 l2 r2 : list A) :
  ~ In x r1 -> ~ In x r2 ->
  l1 ++ x :: r1 = l2 ++ x :: r2 -> l1 = l2 /\ r1 = r2.
Proof.
  intros H1 H2. revert l2. induction l1 as [|a l1 IH]; intros [|b l2] Heq;
    simpl in Heq.
  - injection Heq as ->. auto.
  - injection Heq as <- ->. exfalso. apply H1.
    apply in_or_app. right. left. reflexivity.
  - injection Heq as -> <-. exfalso. apply H2.
    apply in_or_app. right. left. reflexivity.
  - injection Heq as -> Heq. destruct (IH l2 Heq) as [-> ->]. auto.
Qed.

Lemma numeral_without_hyphen (n : Z) :
  0 <= n -> ~ In 45%N (Number_toString n).
Proof.
  intros Hn Hin. pose proof (Number_toString_digits n Hn) as Hd.
  rewrite List.Forall_forall in Hd. specialize (Hd _ Hin).
  unfold is_digit in Hd. lia.
Qed.

(** The keys of the rendered items are pairwise distinct whenever
    no record carries a meeting id: a key is then the project, a hyphen
    and the position, and the position can be read back from it. *)
Lemma render_keys_distinct (sorted : list MeetingRecord) :
  Forall (fun r => truthy (meeting_id r) = false) sorted ->
  List.NoDup (render_keys sorted).
Proof.
  intros Hid. apply NoDup_ListNoDup, NoDup_alt.
  intros i j k Hi Hj. unfold render_keys in Hi, Hj.
  rewrite list_lookup_imap in Hi, Hj.
  destruct (sorted !! i) as [ri|] eqn:Hri; [|discriminate].
  destruct (sorted !! j) as [rj|] eqn:Hrj; [|discriminate].
  cbn [fmap option_fmap option_map] in Hi, Hj.
  rewrite List.Forall_forall in Hid.
  pose proof (Hid ri (proj1 (list_elem_of_In _ _) (list_elem_of_lookup_2 _ _ _ Hri))) as Hti.
  pose proof (Hid rj (proj1 (list_elem_of_In _ _) (list_elem_of_lookup_2 _ _ _ Hrj))) as Htj.
  unfold render_key, js_or in Hi, Hj. rewrite Hti in Hi. rewrite Htj in Hj.
  injection Hi as Hi. injection Hj as Hj. rewrite <- Hj in Hi.
  injection Hi as Hi.
  change (str "-") with [45%N] in Hi. cbn [app] in Hi.
  apply split_at_last in Hi as [_ Hnum];
    try (apply numeral_without_hyphen; lia).
  apply (f_equal (fun s => number_of s 0)) in Hnum.
  rewrite !number_of_Number_toString in Hnum by lia.
  injection Hnum as Hnum. lia.
Qed.

Section KeysOfTheView.
Context {E : Engine}.

Lemma normalizeRecord_no_id (raw : list (list N * list N)) :
  own raw (str "undefined") = None ->
  truthy (meeting_id (normalizeRecord raw)) = false.
Proof.
  intros Hraw.
  change (meeting_id (normalizeRecord raw))
    with (js_or (get raw Undefined) (Str [])).
  unfold get. simpl ToString. rewrite Hraw. reflexivity.
Qed.

(** X14.  Whatever the rows, unless one has a header spelled
    "undefined", and whatever the selectors, the items on display have
    pairwise distinct keys. *)
Theorem displayed_keys_distinct (st : App.State) :
  Forall (fun raw => own raw (str "undefined") = None) (App.rawRows st) ->
  List.NoDup (render_keys (App.sorted st)).
Proof.
  intros Hrows. apply render_keys_distinct.
  apply List.Forall_forall. intros r Hr.
  unfold App.sorted, sortedRecords in Hr.
  eapply Permutation_in in Hr; [|apply Array_sort_perm].
  unfold App.filtered, filteredRecords in Hr.
  apply filter_In in Hr as [Hr _]. unfold App.records in Hr.
  apply in_map_iff in Hr as (raw & <- & Hraw).
  rewrite List.Forall_forall in Hrows.
  apply normalizeRecord_no_id, Hrows, Hraw.
Qed.

End KeysOfTheView.

Lemma number_of_padded (k : nat) (s : list N) :
  number_of (List.repeat 48%N k ++ s) 0 = number_of s 0.
Proof. induction k as [|k IH]; simpl; [reflexivity | exact IH]. Qed.

Lemma year_numeral (y : Z) :
  1000 <= y <= 9999 -> exists a b c d, Number_toString y = [a; b; c; d].
Proof.
  intros Hy.
  assert (forallb (fun k => match Number_toString (Z.of_nat k) with
                            | [_; _; _; _] => true
                            | _ => false
                            end) (seq 1000 (90 * 100)) = true) as Hall
    by (vm_compute; reflexivity).
  rewrite forallb_forall in Hall.
  assert (In (Z.to_nat y) (seq 1000 (90 * 100))) as Hin by (apply in_seq; lia).
  specialize (Hall _ Hin). rewrite Z2Nat.id in Hall by lia.
  destruct (Number_toString y) as [|a [|b [|c [|d [|e l]]]]];
    try discriminate Hall.
  eauto.
Qed.

Lemma short_year_numeral (y : Z) :
  0 <= y <= 999 -> (length (Number_toString y) <= 3)%nat.
Proof.
  intros Hy.
  assert (forallb (fun k => (length (Number_toString (Z.of_nat k)) <=? 3)%nat)
            (seq 0 1000) = true) as Hall
    by (vm_compute; reflexivity).
  rewrite forallb_forall in Hall. specialize (Hall (Z.to_nat y)).
  rewrite Z2Nat.id in Hall by lia. apply Nat.leb_le, Hall, in_seq. lia.
Qed.

Lemma two_digit_numeral (m : Z) :
  0 <= m <= 99 -> exists a b, padStart0 2 (Number_toString m) = [a; b].
Proof.
  intros Hm.
  assert (forallb (fun k => match padStart0 2 (Number_toString (Z.of_nat k)) with
                            | [_; _] => true
                            | _ => false
                            end) (seq 0 100) = true) as Hall
    by (vm_compute; reflexivity).
  rewrite forallb_forall in Hall.
  assert (In (Z.to_nat m) (seq 0 100)) as Hin by (apply in_seq; lia).
  specialize (Hall _ Hin). rewrite Z2Nat.id in Hall by lia.
  destruct (padStart0 2 (Number_toString m)) as [|a [|b [|c l]]];
    try discriminate Hall.
  eauto.
Qed.

Lemma ymd_fields_length (s : list N) :
  length s <> 10%nat -> ymd_fields s = None.
Proof.
  intros Hlen. unfold ymd_fields.
  do 11 (destruct s as [|? s]; [try reflexivity|]); try reflexivity.
  all: simpl in Hlen; lia.
Qed.

Section Labels.
Context {E : Engine}.

(** X15.  For a date whose local year has four digits, the label has ten
    characters and reads back, field by field, as the local year, month
    (counted from 1) and day of the date.  A year below 1000 is not
    padded: the label is shorter and does not read back. *)
Theorem toYMD_reads_back (t : Z) :
  0 <= getMonth t <= 11 -> 1 <= getDate t <= 31 ->
  (1000 <= getFullYear t <= 9999 ->
   length (toYMD (Some t)) = 10%nat /\
   ymd_fields (toYMD (Some t))
   = Some (getFullYear t, getMonth t + 1, getDate t)) /\
  (0 <= getFullYear t <= 999 ->
   (length (toYMD (Some t)) < 10)%nat /\ ymd_fields (toYMD (Some t)) = None).
Proof.
  intros Hm Hd.
  destruct (two_digit_numeral (getMonth t + 1)) as (m1 & m2 & HM); [lia|].
  destruct (two_digit_numeral (getDate t)) as (d1 & d2 & HD); [lia|].
  assert (0 <= getMonth t + 1) as HM0 by lia.
  assert (0 <= getDate t) as HD0 by lia.
  pose proof (number_of_Number_toString _ HM0) as HnM.
  pose proof (number_of_Number_toString _ HD0) as HnD.
  rewrite <- (number_of_padded (2 - length (Number_toString (getMonth t + 1)))) in HnM.
  rewrite <- (number_of_padded (2 - length (Number_toString (getDate t)))) in HnD.
  fold (padStart0 2 (Number_toString (getMonth t + 1))) in HnM.
  fold (padStart0 2 (Number_toString (getDate t))) in HnD.
  rewrite HM in HnM. rewrite HD in HnD.
  unfold toYMD. cbv zeta. rewrite HM, HD.
  change (str "-") with [45%N]. split.
  - intros Hy. destruct (year_numeral _ Hy) as (a & b & c & d & HY).
    assert (0 <= getFullYear t) as HY0 by lia.
    pose proof (number_of_Number_toString _ HY0) as HnY.
    rewrite HY in HnY |- *. cbn [app length]. split; [reflexivity|].
    unfold ymd_fields. cbn [N.eqb Pos.eqb andb]. rewrite HnY, HnM, HnD.
    reflexivity.
  - intros Hy. pose proof (short_year_numeral _ Hy) as Hlen.
    assert (length (Number_toString (getFullYear t) ++
                    [45%N] ++ [m1; m2] ++ [45%N] ++ [d1; d2]) < 10)%nat as Hlt
      by (rewrite length_app; simpl; lia).
    split; [exact Hlt|]. apply ymd_fields_length. lia.
Qed.

End Labels.

(** ** Loading rows *)

Lemma js_or_fallback_truthy (m d : value) :
  truthy d = true -> truthy (js_or m d) = true.
Proof.
  intros Hd. unfold js_or. destruct (truthy m) eqn:Hm; assumption.
Qed.

Lemma parsed_outcome (fallback : string) (res : parse_result) (st : App.State) :
  truthy (Str (str fallback)) = true ->
  match res with
  | Complete data =>
      App.rawRows (App.parsed fallback res st) = default [] data /\
      App.error (App.parsed fallback res st) = Str []
  | ParseError _ =>
      App.rawRows (App.parsed fallback res st) = App.rawRows st /\
      truthy (App.error (App.parsed fallback res st)) = true
  end /\
  App.loading (App.parsed fallback res st) = false.
Proof.
  intros Hf. destruct res as [[rows|]|m]; simpl; repeat split.
  apply js_or_fallback_truthy, Hf.
Qed.

(** X16.  A load by URL that comes to rows replaces the rows wholesale,
    with no merge, and leaves the error empty; any other outcome (empty
    URL, failed request, bad status, parse error) keeps the rows that
    were loaded before and sets a non-empty error message.  Unless the
    URL was empty the loading flag is off at the end.  No outcome touches
    the URL or the selectors.  Loading a picked file behaves the same
    way, and does nothing at all when no file was picked. *)
Theorem load_keeps_or_replaces_rows
  (now : Z) (fetch : list N -> fetch_result) (st : App.State) :
  let st' := App.loadFromUrl now fetch st in
  (forall status data,
      App.csvUrl st <> [] ->
      fetch (App.request_url (App.csvUrl st) now)
      = Response true status (Complete data) ->
      App.rawRows st' = default [] data /\ App.error st' = Str []) /\
  (~ load_succeeds now fetch st ->
   App.rawRows st' = App.rawRows st /\ truthy (App.error st') = true) /\
  (App.csvUrl st <> [] -> App.loading st' = false) /\
  (App.csvUrl st', App.projectFilter st', App.studentFilter st',
   App.dateFrom st', App.dateTo st', App.q st')
  = (App.csvUrl st, App.projectFilter st, App.studentFilter st,
     App.dateFrom st, App.dateTo st, App.q st) /\
  (forall res,
      let st2 := App.handleCsvFile (Some res) st in
      match res with
      | Complete data =>
          App.rawRows st2 = default [] data /\ App.error st2 = Str []
      | ParseError _ =>
          App.rawRows st2 = App.rawRows st /\ truthy (App.error st2) = true
      end /\
      App.loading st2 = false) /\
  App.handleCsvFile None st = st.
Proof.
  intros st'. subst st'. unfold App.loadFromUrl, load_succeeds.
  assert (forall res,
             let st2 := App.handleCsvFile (Some res) st in
             match res with
             | Complete data =>
                 App.rawRows st2 = default [] data /\ App.error st2 = Str []
             | ParseError _ =>
                 App.rawRows st2 = App.rawRows st /\
                 truthy (App.error st2) = true
             end /\ App.loading st2 = false) as Hfile
    by (intros res; apply (parsed_outcome "Failed to parse CSV" res st eq_refl)).
  destruct (App.csvUrl st) as [|c url] eqn:Hurl; cbn [nonempty negb].
  { split; [intros status data Hne; congruence|].
    split; [intros _; split; reflexivity|].
    split; [congruence|].
    split; [cbn; rewrite ?Hurl; reflexivity|].
    split; [exact Hfile | reflexivity]. }
  destruct (fetch (App.request_url (c :: url) now))
    as [m | [|] status [data | m]] eqn:Hfetch.
  - split; [intros status data _ Hf; discriminate Hf|].
    split; [intros _; split;
            [reflexivity | apply js_or_fallback_truthy; reflexivity]|].
    split; [intros _; reflexivity|].
    split; [cbn; rewrite ?Hurl; reflexivity|].
    split; [exact Hfile | reflexivity].
  - split; [intros status' data' _ [= _ <-]; split; reflexivity|].
    split; [intros Hn; exfalso; apply Hn; split; [discriminate | eauto]|].
    split; [intros _; reflexivity|].
    split; [cbn; rewrite ?Hurl; reflexivity|].
    split; [exact Hfile | reflexivity].
  - split; [intros status' data' _ Hf; discriminate Hf|].
    split; [intros _; split;
            [reflexivity | apply js_or_fallback_truthy; reflexivity]|].
    split; [intros _; reflexivity|].
    split; [cbn; rewrite ?Hurl; reflexivity|].
    split; [exact Hfile | reflexivity].
  - split; [intros status' data' _ Hf; discriminate Hf|].
    split; [intros _; split;
            [reflexivity | apply js_or_fallback_truthy; reflexivity]|].
    split; [intros _; reflexivity|].
    split; [cbn; rewrite ?Hurl; reflexivity|].
    split; [exact Hfile | reflexivity].
  - split; [intros status' data' _ Hf; discriminate Hf|].
    split; [intros _; split;
            [reflexivity | apply js_or_fallback_truthy; reflexivity]|].
    split; [intros _; reflexivity|].
    split; [cbn; rewrite ?Hurl; reflexivity|].
    split; [exact Hfile | reflexivity].
Qed.

(** ** Date bounds and offered values *)

Section BoundsAndOffers.
Context {E : Engine}.

Lemma from_ok_invalid (text : list N) (r : MeetingRecord) :
  Date_parse text = None -> from_ok (bound text) r = true.
Proof.
  intros Hp. unfold from_ok, bound.
  destruct (nonempty text); [rewrite Hp|]; destruct (date r); reflexivity.
Qed.

Lemma to_ok_invalid (text : list N) (r : MeetingRecord) :
  Date_parse text = None -> to_ok (bound text) r = true.
Proof.
  intros Hp. unfold to_ok, bound.
  destruct (nonempty text); [rewrite Hp|]; destruct (date r); reflexivity.
Qed.

Lemma later_from_bound_removes
  (records : list MeetingRecord) (pf sf dateFrom dateFrom' dateTo q : list N)
  (f f' : Z) :
  Date_parse dateFrom = Some f -> Date_parse dateFrom' = Some f' ->
  dateFrom' <> [] -> f <= f' ->
  forall r, In r (filteredRecords records pf sf dateFrom' dateTo q) ->
            In r (filteredRecords records pf sf dateFrom dateTo q).
Proof.
  intros Hf Hf' Hne Hff r. rewrite !In_filteredRecords. unfold satisfies.
  intros (Hin & Hpr & Hst & Hfrom & Hto & Hq).
  repeat split; try assumption.
  intros d f0 _ Hd Hf0. rewrite Hf in Hf0. injection Hf0 as <-.
  specialize (Hfrom d f' Hne Hd Hf'). lia.
Qed.

Lemma earlier_to_bound_removes
  (records : list MeetingRecord) (pf sf dateFrom dateTo dateTo' q : list N)
  (t t' : Z) :
  Date_parse dateTo = Some t -> Date_parse dateTo' = Some t' ->
  dateTo' <> [] -> t' <= t ->
  forall r, In r (filteredRecords records pf sf dateFrom dateTo' q) ->
            In r (filteredRecords records pf sf dateFrom dateTo q).
Proof.
  intros Ht Ht' Hne Htt r. rewrite !In_filteredRecords. unfold satisfies.
  intros (Hin & Hpr & Hst & Hfrom & Hto & Hq).
  repeat split; try assumption.
  intros d t0 _ Hd Ht0. rewrite Ht in Ht0. injection Ht0 as <-.
  specialize (Hto d t' Hne Hd Ht'). lia.
Qed.

(** X17.  A date bound whose text does not parse filters nothing: the
    result is the one obtained with the bound left empty.  Bounds that
    parse are inclusive.  Moving the from-bound later, or the to-bound
    earlier, can only remove records, whatever the other bound is (in
    use or not), and so does putting a bound in use where there was
    none. *)
Theorem date_bounds_narrow
  (records : list MeetingRecord) (pf sf dateFrom dateTo q : list N) :
  (Date_parse dateFrom = None ->
   filteredRecords records pf sf dateFrom dateTo q
   = filteredRecords records pf sf [] dateTo q) /\
  (Date_parse dateTo = None ->
   filteredRecords records pf sf dateFrom dateTo q
   = filteredRecords records pf sf dateFrom [] q) /\
  (forall dateFrom' dateTo' f f' t t',
      Date_parse dateFrom = Some f -> Date_parse dateFrom' = Some f' ->
      Date_parse dateTo = Some t -> Date_parse dateTo' = Some t' ->
      dateFrom' <> [] -> dateTo' <> [] ->
      f <= f' -> t' <= t ->
      forall r, In r (filteredRecords records pf sf dateFrom' dateTo' q) ->
                In r (filteredRecords records pf sf dateFrom dateTo q)) /\
  (forall r d,
      In r (filteredRecords records pf sf [] [] q) ->
      date r = Some d ->
      Date_parse dateFrom = Some d -> Date_parse dateTo = Some d ->
      In r (filteredRecords records pf sf dateFrom dateTo q)) /\
  (forall dateFrom' f f',
      Date_parse dateFrom = Some f -> Date_parse dateFrom' = Some f' ->
      dateFrom' <> [] -> f <= f' ->
      forall r, In r (filteredRecords records pf sf dateFrom' dateTo q) ->
                In r (filteredRecords records pf sf dateFrom dateTo q)) /\
  (forall dateTo' t t',
      Date_parse dateTo = Some t -> Date_parse dateTo' = Some t' ->
      dateTo' <> [] -> t' <= t ->
      forall r, In r (filteredRecords records pf sf dateFrom dateTo' q) ->
                In r (filteredRecords records pf sf dateFrom dateTo q)) /\
  (forall r, In r (filteredRecords records pf sf dateFrom dateTo q) ->
             In r (filteredRecords records pf sf [] dateTo q) /\
             In r (filteredRecords records pf sf dateFrom [] q) /\
             In r (filteredRecords records pf sf [] [] q)).
Proof.
  split; [|split; [|split; [|split; [|split; [|split]]]]].
  - intros Hp. unfold filteredRecords. apply filter_ext. intros r.
    rewrite !keep_conjunction, (from_ok_invalid dateFrom r Hp). reflexivity.
  - intros Hp. unfold filteredRecords. apply filter_ext. intros r.
    rewrite !keep_conjunction, (to_ok_invalid dateTo r Hp). reflexivity.
  - intros dateFrom' dateTo' f f' t t' Hf Hf' Ht Ht' Hne Hne' Hff Htt r Hr.
    apply (later_from_bound_removes records pf sf dateFrom dateFrom' dateTo q
             f f' Hf Hf' Hne Hff).
    apply (earlier_to_bound_removes records pf sf dateFrom' dateTo dateTo' q
             t t' Ht Ht' Hne' Htt). exact Hr.
  - intros r d. rewrite !In_filteredRecords. unfold satisfies.
    intros (Hin & Hpr & Hst & _ & _ & Hq) Hd Hf Ht.
    repeat split; try assumption.
    + intros d0 f0 _ Hd0 Hf0. rewrite Hd in Hd0. rewrite Hf in Hf0.
      injection Hd0 as <-. injection Hf0 as <-. lia.
    + intros d0 t0 _ Hd0 Ht0. rewrite Hd in Hd0. rewrite Ht in Ht0.
      injection Hd0 as <-. injection Ht0 as <-. lia.
  - intros dateFrom' f f'. apply later_from_bound_removes.
  - intros dateTo' t t'. apply earlier_to_bound_removes.
  - intros r. rewrite !In_filteredRecords. unfold satisfies.
    intros (Hin & Hpr & Hst & Hfrom & Hto & Hq).
    repeat split; try assumption; intros d b Hne; congruence.
Qed.

(** X18.  The project of every row is on offer in the project selector,
    "Unspecified Project" included.  A row without a student name is not
    on offer in the student selector, and no student that is on offer
    other than one called "ALL" brings it up: it shows only under the
    wildcard. *)
Theorem offers_cover_projects_not_blank_students
  (rows : list (list (list N * list N))) (raw : list (list N * list N)) :
  In raw rows ->
  let recs := List.map normalizeRecord rows in
  In (Str (project_text raw)) (tail (projects recs)) /\
  (own raw H_STUDENT = None \/ own raw H_STUDENT = Some [] ->
   forall s, In (Str s) (tail (students recs)) -> s <> str "ALL" ->
             ~ In (normalizeRecord raw)
                 (filteredRecords recs (str "ALL") s [] [] [])).
Proof.
  intros Hraw recs.
  destruct (options_lists recs) as [(lp & Hlp & _ & Hp) (ls & Hls & _ & Hs)].
  rewrite Hlp, Hls. simpl tail. split.
  - apply Hp. split.
    + unfold project_text. destruct (own raw H_PROJECT) as [[|c s]|]; reflexivity.
    + exists (normalizeRecord raw). split; [apply in_map, Hraw|].
      rewrite <- group_key_normalized. unfold group_key, js_or.
      assert (truthy (project (normalizeRecord raw)) = true) as ->; [|reflexivity].
      change (project (normalizeRecord raw))
        with (js_or (get raw (Str H_PROJECT)) (Str UNSPECIFIED)).
      apply js_or_fallback_truthy. reflexivity.
  - intros Hst s Hoffer Hne Hin. apply Hs in Hoffer as [Hts _].
    apply In_filteredRecords in Hin as (_ & _ & [Hall | Heq] & _);
      [contradiction|].
    change (student (normalizeRecord raw))
      with (js_or (get raw (Str H_STUDENT)) (Str [])) in Heq.
    rewrite get_own in Heq.
    destruct Hst as [Hst | Hst]; rewrite Hst in Heq; injection Heq as <-;
      discriminate Hts.
Qed.

End BoundsAndOffers.

(** ** The further properties on concrete inputs *)

Lemma sortedRecords_idempotent_witness :
  sortedRecords [ex_d; ex_a; ex_e; ex_b] = [ex_d; ex_a; ex_e; ex_b].
Proof.
  apply (proj1 (sortedRecords_idempotent [ex_d; ex_a; ex_e; ex_b])).
  unfold newest_first.
  repeat first [apply SSorted_nil | apply SSorted_cons
               | apply List.Forall_nil | apply List.Forall_cons];
    vm_compute; discriminate.
Defined.

Lemma sort_after_filter_is_filter_after_sort_witness :
  sortedRecords
    (filteredRecords (E := utc_host) ex_records P_ (str "ALL") [] [] [])
  = filteredRecords (E := utc_host) (sortedRecords ex_records)
      P_ (str "ALL") [] [] [].
Proof.
  apply (sort_after_filter_is_filter_after_sort (E := utc_host)).
Defined.

Lemma group_is_slice_of_sorted_witness :
  [ex_d; ex_a; ex_e; ex_b] = grp (Str P_) (sortedRecords ex_records).
Proof.
  apply (group_is_slice_of_sorted ex_records (Str P_)). reflexivity.
Defined.

Lemma groupByProject_partitions_witness :
  Permutation (concat (List.map snd (groupByProject ex_records))) ex_records.
Proof. apply (proj1 (groupByProject_partitions ex_records)). Defined.

Lemma filter_passes_compose_witness :
  sublist (filteredRecords (E := utc_host) ex_records P_ (str "ALL") [] [] [])
    ex_records.
Proof.
  apply (proj1 (filter_passes_compose (E := utc_host) ex_records
                  P_ (str "ALL") [] [] [])).
Defined.

Lemma resetFilters_shows_everything_witness :
  length (App.sorted (E := utc_host) (App.resetFilters ex_state)) = 3%nat.
Proof.
  apply (proj1 (proj2 (resetFilters_shows_everything (E := utc_host) ex_state))).
Defined.

Lemma selector_options_witness :
  exists l,
    projects ex_records = Str (str "ALL") :: l /\
    StronglySorted (fun a b => str_lt (ToString a) (ToString b)) l /\
    forall v, In v l <->
              truthy v = true /\ exists r, In r ex_records /\ project r = v.
Proof. apply (proj1 (selector_options ex_records)). Defined.

Lemma offered_project_selects_records_witness :
  exists r,
    In r (filteredRecords (E := utc_host) ex_records P_ (str "ALL") [] [] [])
    /\ project r = Str P_.
Proof.
  apply (proj1 (offered_project_selects_records (E := utc_host) ex_records P_
                  ltac:(left; reflexivity))).
Defined.

Lemma splitList_recovers_joined_items_witness :
  splitList (Str (join (str "; ") [str "A"; str "B"; str "C"]))
  = [str "A"; str "B"; str "C"].
Proof.
  apply (splitList_recovers_joined_items 59%N [32%N]).
  - reflexivity.
  - repeat constructor.
  - repeat constructor.
  - repeat first [apply List.Forall_nil | apply List.Forall_cons];
      (split; [discriminate|]; split;
       [split; intros c [= <-]; reflexivity | repeat constructor]).
Defined.

Lemma splitList_items_come_from_text_witness :
  occurs_in (str "B") (str "A; B;C") /\
  Forall (fun c => c <> 59 /\ c <> 10)%N (str "B").
Proof.
  apply (proj1 (splitList_items_come_from_text (str "A; B;C"))).
  right. left. reflexivity.
Defined.

Lemma pickColumn_returns_a_cell_witness :
  exists k, In (k, str "Email draft; Book room") row_fallback /\
            (truthy (Str H_ACTION) = true /\ k = ToString (Str H_ACTION)
             \/ regex_test action_regex k = true).
Proof.
  apply (proj1 (proj2 (pickColumn_returns_a_cell row_fallback (Str H_ACTION)
                         action_regex))).
  reflexivity.
Defined.

Lemma date_cell_shadows_timestamp_witness :
  date (normalizeRecord (E := utc_host) row_bad_date) = None /\
  date_label (normalizeRecord (E := utc_host) row_bad_date) = str "next week".
Proof.
  destruct (proj1 (date_cell_shadows_timestamp (E := utc_host) row_bad_date)
              110%N (List.tl (str "next week")) eq_refl) as [Hd Hl].
  split; [exact Hd | exact (Hl eq_refl)].
Defined.

Lemma rows_share_group_iff_same_project_text_witness :
  exists k g,
    Map_get (groupByProject
               (List.map (normalizeRecord (E := utc_host))
                  [row_no_project; row_kickoff; row_sentinel_named])) k
    = Some g /\
    In (normalizeRecord (E := utc_host) row_no_project) g /\
    In (normalizeRecord (E := utc_host) row_sentinel_named) g.
Proof.
  apply (proj2 (rows_share_group_iff_same_project_text (E := utc_host)
                  [row_no_project; row_kickoff; row_sentinel_named]
                  row_no_project row_sentinel_named
                  ltac:(left; reflexivity)
                  ltac:(right; right; left; reflexivity))).
  reflexivity.
Defined.

Lemma displayed_keys_distinct_witness :
  List.NoDup (render_keys (App.sorted (E := utc_host) ex_state)).
Proof.
  apply (displayed_keys_distinct (E := utc_host) ex_state).
  repeat constructor.
Defined.

Lemma toYMD_reads_back_witness :
  length (toYMD (E := utc_host) (Some 1739145600000)) = 10%nat /\
  ymd_fields (toYMD (E := utc_host) (Some 1739145600000)) = Some (2025, 2, 10).
Proof.
  apply (proj1 (toYMD_reads_back (E := utc_host) 1739145600000
                  ltac:(vm_compute; split; discriminate)
                  ltac:(vm_compute; split; discriminate)));
    vm_compute; split; discriminate.
Defined.

Lemma load_keeps_or_replaces_rows_witness :
  App.rawRows (App.loadFromUrl 1739145600000 offline ex_state)
  = App.rawRows ex_state /\
  truthy (App.error (App.loadFromUrl 1739145600000 offline ex_state)) = true.
Proof.
  apply (proj1 (proj2 (load_keeps_or_replaces_rows 1739145600000 offline
                         ex_state))).
  intros (_ & status & data & Hf). discriminate Hf.
Defined.

Lemma date_bounds_narrow_witness :
  filteredRecords (E := utc_host) ex_records (str "ALL") (str "ALL")
    (str "soon") [] []
  = filteredRecords (E := utc_host) ex_records (str "ALL") (str "ALL")
      [] [] [].
Proof.
  apply (proj1 (date_bounds_narrow (E := utc_host) ex_records
                  (str "ALL") (str "ALL") (str "soon") [] [])).
  reflexivity.
Defined.

Lemma offers_cover_projects_not_blank_students_witness :
  In (Str UNSPECIFIED)
    (tail (projects (List.map (normalizeRecord (E := utc_host))
                       [row_kickoff; row_no_project]))).
Proof.
  apply (proj1 (offers_cover_projects_not_blank_students (E := utc_host)
                  [row_kickoff; row_no_project] row_no_project
                  ltac:(right; left; reflexivity))).
Defined.
